(** * lit-html: the rollup build configuration and the styleMap directive

    A shallow embedding of [rollup-common.js] (the function
    [litRollupConfig] and the constants it closes over) and of the contract
    that the [styleMap] test-suite exercises.

    JavaScript objects that are used as dictionaries are finite maps
    ([gmap string _]); object literals whose key order is observed
    ([Object.entries], [Object.keys]) are association lists in literal
    order; the one object that is shared between two plugin instances (the
    terser name cache) lives in an explicit store and is referred to by its
    location. *)

From Stdlib Require Import Ascii String.
From stdpp Require Import gmap strings list fin_maps.

(** ** Fragments of the host language *)

Module JS.

(** The exceptions: the two the configuration function can raise, and a
    plain [Error]. *)
Inductive Error :=
| ReferenceError (identifier : string)
| TypeError (message : string)
| GenericError (message : string).

(** A computation that either completes with a value or throws. *)
Inductive completion (A : Type) :=
| Return (a : A)
| Throw (e : Error).
Arguments Return {A} a.
Arguments Throw {A} e.

(** The scalar values that appear as option values in the file. *)
Inductive Value :=
| VBool (b : bool)
| VString (s : string).

(** [Array.prototype.join]. *)
Definition join (sep : string) (xs : list string) : string :=
  String.concat sep xs.

(** [String.prototype.split] on a one-character separator. *)
Fixpoint split (sep : ascii) (s : string) : list string :=
  match s with
  | EmptyString => [EmptyString]
  | String c s' =>
      if Ascii.eqb c sep
      then EmptyString :: split sep s'
      else match split sep s' with
           | [] => [String c EmptyString]
           | piece :: pieces => String c piece :: pieces
           end
  end.


(** The fragment of regular expressions the file uses: a sequence of
    atoms, each a start-of-input assertion or a literal character.
    [/^_/] is [[Caret; Lit "_"]]. *)
Inductive Atom :=
| Caret
| Lit (c : ascii).

Definition RegExp := list Atom.

Fixpoint match_here (r : RegExp) (at_start : bool) (s : string) : bool :=
  match r with
  | [] => true
  | Caret :: r' => at_start && match_here r' at_start s
  | Lit a :: r' =>
      match s with
      | String c s' => Ascii.eqb a c && match_here r' false s'
      | EmptyString => false
      end
  end.

Fixpoint search (r : RegExp) (at_start : bool) (s : string) : bool :=
  match_here r at_start s
  || match s with
     | String _ s' => search r false s'
     | EmptyString => false
     end.

(** [RegExp.prototype.test]. *)
Definition test (r : RegExp) (s : string) : bool := search r true s.

End JS.

(** ** rollup-common.js *)

Module RollupCommon.
Import JS.

(** *** Module-level constants *)

(** The host the module is loaded in: [process.env] and the [path]
    library's [dirname] (both belong to the host, not to this file). *)
Record Host := {
  process_env : gmap string string;
  pathLib_dirname : string → string
}.

(** [const CHECKSIZE = !!process.env.CHECKSIZE]: an unset variable is
    [undefined], and the empty string is falsy as well. *)
Definition CHECKSIZE (h : Host) : bool :=
  match process_env h !! "CHECKSIZE" with
  | Some s => negb (String.eqb s EmptyString)
  | None => false
  end.

Definition reservedProperties : list string :=
  [ "_$litType$";
    "_$litDirective$";
    "_value";
    "_setValue";
    "_resolveValue" ].

(** The object literal, as the list of its entries in literal order. All
    keys are distinct and none is an array index, so [Object.entries] and
    [Object.keys] enumerate them in this order. *)
Definition crossPackagePropertyMangles : list (string * string) :=
  [ ("_createElement", "A");
    ("_endNode", "B");
    ("_startNode", "C");
    ("_parts", "E");
    ("_directive", "F");
    ("_setEndNode", "G");
    ("_template", "H");
    ("_constructor", "I");
    ("_name", "J");
    ("_strings", "K");
    ("_commitValue", "L") ].

Definition Object_entries {V} (o : list (string * V)) : list (string * V) := o.
Definition Object_keys {V} (o : list (string * V)) : list string := o.*1.

(** *** The name cache *)

Module Props.
Record t := { props : gmap string string }.
End Props.

(** [{ props: { props: {...} } }] *)
Record NameCache := { props : Props.t }.

(** [Object.entries(crossPackagePropertyMangles).reduce(
       (obj, [name, val]) => ({ ...obj, ["$" + name]: val }), {})] *)
Definition seeded_props : gmap string string :=
  foldl (λ obj '(name, val), <["$" +:+ name := val]> obj)
        ∅ (Object_entries crossPackagePropertyMangles).

(** The entries the reduction inserts: the table's names with ["$"] in
    front, each with its token. *)
Definition cache_entries : list (string * string) :=
  prod_map (String.append "$") id <$> Object_entries crossPackagePropertyMangles.

Definition nameCache : NameCache :=
  {| props := {| Props.props := seeded_props |} |}.

Definition nameCacheSeederInfile : string := "name-cache-seeder-virtual-input.js".
Definition nameCacheSeederOutfile : string := "name-cache-seeder-throwaway-output.js".

Definition LF : ascii := ascii_of_nat 10.

Definition newline : string := String LF EmptyString.

(** The two kinds of line of the seeder module. *)
Definition import_statement (name : string) : string :=
  "import './development/" +:+ name +:+ ".js';".

Definition property_read (name : string) : string :=
  "console.log(window." +:+ name +:+ ");".

Definition nameCacheSeederContents (entryPoints : list string) : string :=
  join newline
    (map import_statement entryPoints
     ++ map property_read (Object_keys crossPackagePropertyMangles)).


(** *** Option records *)

Module Terser.

Record Compress := { unsafe : bool; passes : nat }.

Record Output := { comments : Value; inline_script : bool }.

Record MangleProperties := {
  regex : RegExp;
  reserved : list string;
  debug : bool
}.

Record Mangle := { properties : MangleProperties }.

(** The options object handed to [terser(...)]. [nameCache] is the
    location of the cache object in the store: two options values with the
    same location share one cache. *)
Record Options := {
  warnings : bool;
  ecma : nat;
  compress : Compress;
  output : Output;
  nameCache : nat;
  mangle : Mangle
}.

End Terser.

Module Copy.

Record Target := { src : string; dest : string }.

End Copy.

(** The plugin instances that occur in the plugin arrays. [skipBundleOutput]
    is the object defined in this file; the others are the results of the
    imported factories, recorded with the arguments they were called with. *)
Inductive Plugin :=
| virtual (modules : list (string * string))
| terser (options : Terser.Options)
| skipBundleOutput
| replace (values : list (string * string))
| sourcemaps
| summary
| copy (targets : list Copy.Target).

(** [input] is a single module id in the first stage and an array in the
    second. *)
Inductive Input :=
| InputFile (id : string)
| InputFiles (ids : list string).

(** The [output] object; a field that a literal leaves out is [None]. *)
Record OutputOptions := {
  file : option string;
  dir : option string;
  format : string;
  preserveModules : option bool;
  sourcemap : option bool
}.

(** One element of the returned array. *)
Record Stage := {
  input : Input;
  output : OutputOptions;
  external : list string;
  treeshake : option bool;
  plugins : list Plugin
}.

(** *** The store of name-cache objects *)

Definition Store := list NameCache.

(** Evaluating an object literal allocates a new object. *)
Definition alloc (c : NameCache) (σ : Store) : nat * Store :=
  (List.length σ, σ ++ [c]).

(** *** skipBundleOutput.generateBundle *)

(** [for (const name in bundles) { delete bundles[name]; }], on the
    bundle table the bundler passes to the hook (file name to code). *)
Definition generateBundle (bundles : gmap string string) : gmap string string :=
  foldl (λ b name, delete name b) bundles (map_to_list bundles).*1.

(** *** litRollupConfig *)

Module Arg.

(** The properties of the argument object that the parameter pattern
    reads; [None] is a property that is absent (or [undefined]). *)
Record Object := {
  entryPoints : option (list string);
  external : option (list string)
}.

(** What the caller passes. *)
Inductive t :=
| Undefined
| Null
| Obj (o : Object).

End Arg.

(** The identifiers bound at the top level of the module (imports,
    constants, the function itself). The host's global object has no
    property of any other name that the file mentions. *)
Definition module_scope : list string :=
  [ "summary"; "terser"; "copy"; "pathLib"; "sourcemaps"; "replace";
    "virtual"; "CHECKSIZE"; "skipBundleOutput"; "reservedProperties";
    "crossPackagePropertyMangles"; "litRollupConfig" ].

(** Resolving an identifier that is read as the default value of the
    parameter. None of the module's bindings is an object with an
    [entryPoints] or [external] property, so a resolved binding destructures
    to absent properties; an unresolved one throws. *)
Definition resolve_default (identifier : string) : completion Arg.Object :=
  if bool_decide (identifier ∈ module_scope)
  then Return {| Arg.entryPoints := None; Arg.external := None |}
  else Throw (ReferenceError identifier).

(** Binding the parameter [{ entryPoints, external = [] } = options]. *)
Definition bind_parameter (a : Arg.t)
  : completion (option (list string) * list string) :=
  let destructure (o : Arg.Object) :=
    (Arg.entryPoints o, default [] (Arg.external o)) in
  match a with
  | Arg.Undefined =>
      match resolve_default "options" with
      | Return o => Return (destructure o)
      | Throw e => Throw e
      end
  | Arg.Null => Throw (TypeError "Cannot destructure 'null'")
  | Arg.Obj o => Return (destructure o)
  end.

Definition terserOptions (h : Host) (cache : nat) : Terser.Options :=
  {| Terser.warnings := true;
     Terser.ecma := 2017;
     Terser.compress := {| Terser.unsafe := true; Terser.passes := 2 |};
     Terser.output :=
       {| Terser.comments := if CHECKSIZE h then VBool false else VString "some";
          Terser.inline_script := false |};
     Terser.nameCache := cache;
     Terser.mangle :=
       {| Terser.properties :=
            {| Terser.regex := [Caret; Lit "_"];
               Terser.reserved := reservedProperties;
               Terser.debug := false |} |} |}.

(** The first element of the returned array. *)
Definition seederStage (h : Host) (cache : nat)
    (entryPoints external : list string) : Stage :=
  {| input := InputFile nameCacheSeederInfile;
     output :=
       {| file := Some nameCacheSeederOutfile;
          dir := None;
          format := "esm";
          preserveModules := None;
          sourcemap := None |};
     external := external;
     treeshake := Some false;
     plugins :=
       [ virtual [(nameCacheSeederInfile, nameCacheSeederContents entryPoints)];
         terser (terserOptions h cache);
         skipBundleOutput ] |}.

(** The second element of the returned array. *)
Definition entryStage (h : Host) (cache : nat)
    (entryPoints external : list string) : Stage :=
  {| input := InputFiles (map (λ name, "development/" +:+ name +:+ ".js") entryPoints);
     output :=
       {| file := None;
          dir := Some "./";
          format := "esm";
          preserveModules := Some true;
          sourcemap := Some (negb (CHECKSIZE h)) |};
     external := external;
     treeshake := None;
     plugins :=
       [ replace [("const DEV_MODE = true", "const DEV_MODE = false")];
         sourcemaps;
         terser (terserOptions h cache);
         summary ]
       ++ (if CHECKSIZE h
           then [skipBundleOutput]
           else [ copy (map (λ name,
                          {| Copy.src := "development/" +:+ name +:+ ".d.ts";
                             Copy.dest := pathLib_dirname h name |})
                        entryPoints) ]) |}.

(** The exported function. The name cache is allocated first (line 99);
    [entryPoints.map] (line 113) throws when [entryPoints] is undefined. *)
Definition litRollupConfig (h : Host) (a : Arg.t) (σ : Store)
  : completion (list Stage * Store) :=
  match bind_parameter a with
  | Throw e => Throw e
  | Return (entryPoints, external) =>
      let '(cache, σ') := alloc nameCache σ in
      match entryPoints with
      | None => Throw (TypeError "Cannot read properties of undefined (reading 'map')")
      | Some entryPoints =>
          Return ([ seederStage h cache entryPoints external;
                    entryStage h cache entryPoints external ], σ')
      end
  end.

End RollupCommon.

(** ** The external collaborators the configuration is written for

    The bundler runtime, the minifier and the imported plugins are not part
    of the repository. What the configuration relies on is written down
    here, from the specification's description of them; whatever the
    description leaves open is a [Variable]. *)

Module Runtime.
Import JS RollupCommon.

(** Modelled from the spec: the minifier's decision to mangle a property
    name (the minifier itself is external). "Property mangling restricted
    to names matching a private naming convention (a leading-underscore-style
    prefix), the Reserved Property Set excluded from mangling". *)
Definition should_mangle (o : Terser.MangleProperties) (name : string) : bool :=
  test (Terser.regex o) name && negb (bool_decide (name ∈ Terser.reserved o)).

Section Mangler.

(** The token the minifier invents for a name the cache does not know. *)
Variable fresh_token : NameCache → string → string.

(** Modelled from the spec: the name a property has in the minified
    output. A mangled name takes its token from the name cache, whose keys
    carry a ["$"] prefix, and a new token otherwise. *)
Definition mangle_property (o : Terser.MangleProperties) (cache : NameCache)
    (name : string) : string :=
  if should_mangle o name
  then match Props.props (props cache) !! ("$" +:+ name) with
       | Some token => token
       | None => fresh_token cache name
       end
  else name.

End Mangler.

Section Emission.

(** The [generateBundle] hooks of the imported plugins: arbitrary. *)
Variable imported_generateBundle : Plugin → gmap string string → gmap string string.

Definition plugin_generateBundle (p : Plugin) (bundles : gmap string string)
  : gmap string string :=
  match p with
  | skipBundleOutput => generateBundle bundles
  | _ => imported_generateBundle p bundles
  end.

(** Modelled from the spec: the bundler's emission step. The
    [generateBundle] hooks run in plugin order on the bundle table, and what
    is left in the table is written. *)
Definition written (st : Stage) (bundles : gmap string string) : gmap string string :=
  foldl (λ b p, plugin_generateBundle p b) bundles (plugins st).

End Emission.

(** The files the [copy] plugins of a stage are asked to place. *)
Definition copied (st : Stage) : list Copy.Target :=
  flat_map (λ p, match p with copy targets => targets | _ => [] end) (plugins st).

(** Modelled from the spec: "textually replace": every occurrence of
    [pat], found left to right, is replaced by [rep]. [skip] counts the
    characters of an occurrence that are still to be dropped. *)
Fixpoint replace_from (pat rep : string) (skip : nat) (s : string) : string :=
  match s with
  | EmptyString => EmptyString
  | String c s' =>
      match skip with
      | S k => replace_from pat rep k s'
      | O =>
          if String.prefix pat s
          then rep +:+ replace_from pat rep (String.length pat - 1) s'
          else String c (replace_from pat rep 0 s')
      end
  end.

Definition replace_text (pat rep s : string) : string :=
  replace_from pat rep 0 s.

(** The [transform] hook of a plugin: of the plugins in this file only
    [replace] rewrites module source. *)
Definition plugin_transform (p : Plugin) (code : string) : string :=
  match p with
  | replace values => foldl (λ c '(pat, rep), replace_text pat rep c) code values
  | _ => code
  end.

Definition transform (st : Stage) (code : string) : string :=
  foldl (λ c p, plugin_transform p c) code (plugins st).

(** A string without its last character. *)
Fixpoint but_last (s : string) : string :=
  match s with
  | EmptyString => EmptyString
  | String c s' =>
      match s' with
      | EmptyString => EmptyString
      | String _ _ => String c (but_last s')
      end
  end.

(** [pat] occurs in [s]. *)
Definition occurs (pat s : string) : Prop :=
  ∃ a b, s = a +:+ pat +:+ b.

(** The same, decided by trying every position. *)
Fixpoint occursb (pat s : string) : bool :=
  String.prefix pat s
  || match s with
     | EmptyString => false
     | String _ s' => occursb pat s'
     end.

Section Build.

(** One minification pass: the cache it leaves behind, given the options,
    the cache it starts from and the code of the stage. *)
Variable minify : Terser.Options → NameCache → Input → NameCache.

(** What a build records: which stage was minified, and the cache the
    pass started from. *)
Inductive Event :=
| Minified (stage_input : Input) (cache_before : NameCache).

Definition run_plugin (st : Stage) (s : Store * list Event) (p : Plugin)
  : Store * list Event :=
  match p with
  | terser o =>
      match s.1 !! Terser.nameCache o with
      | Some c =>
          (<[Terser.nameCache o := minify o c (input st)]> s.1,
           s.2 ++ [Minified (input st) c])
      | None => s
      end
  | _ => s
  end.

(** Modelled from the spec: the build is sequential; the stages run in the
    order of the returned array, each to completion. *)
Definition run_stage (s : Store * list Event) (st : Stage) : Store * list Event :=
  foldl (run_plugin st) s (plugins st).

Definition run (config : list Stage) (σ : Store) : Store * list Event :=
  foldl run_stage (σ, []) config.

End Build.

End Runtime.

(** ** The styleMap directive

    The directive's module, [directives/style-map.js], is not among the
    sources; its test-suite is. The operations below are therefore written
    from the specification's contract for it and checked on the suite's
    cases further down. *)

Module StyleMap.
Import JS.

(** A style map: the entries of the object, in key order. *)
Definition StyleInfo := list (string * string).

(** The inline style of the element: CSS property name to value. A
    property that is not set reads as the empty string. *)
Definition getPropertyValue (style : gmap string string) (property : string) : string :=
  default EmptyString (style !! property).

(** Modelled from the spec: "hyphenated keys and camelCase keys both
    accepted". The CSS property a key names: an upper-case letter stands for
    a hyphen and its lower-case form; every other character for itself. *)
Definition hyphenate_char (c : ascii) : string :=
  let n := nat_of_ascii c in
  if (65 <=? n) && (n <=? 90)
  then String "-" (String (ascii_of_nat (n + 32)) EmptyString)
  else String c EmptyString.

Fixpoint css_property (key : string) : string :=
  match key with
  | EmptyString => EmptyString
  | String c key' => hyphenate_char c +:+ css_property key'
  end.

(** Where a directive can be bound: in element content, or in the value of
    an attribute. [strings] are the static fragments of the attribute value
    around its dynamic parts, so a value with n dynamic parts has n + 1 of
    them: two empty fragments when the value is one dynamic part and
    nothing else, three fragments when it has two dynamic parts. *)
Inductive Site :=
| Content
| Attribute (name : string) (strings : list string).

Definition dynamic_parts (strings : list string) : nat :=
  length strings - 1.

(** The directive is unbound, or bound and remembers the keys it set. *)
Inductive State :=
| Unbound
| Bound (keys : list string).

Definition previous_keys (d : State) : list string :=
  match d with
  | Unbound => []
  | Bound keys => keys
  end.

Section Directive.

(** The CSS property a key names. *)
Variable property_of : string → string.

(** Modelled from the spec: the operation apply of the directive, whose
    module [directives/style-map.js] is missing. "Any key present in S
    but absent from S' is cleared (reset to empty); any key in S' is
    set/overwritten; comparison is by current vs. previous key set". *)
Definition apply (S : StyleInfo) (d : State * gmap string string)
  : State * gmap string string :=
  let cleared :=
    foldl (λ style k,
             if bool_decide (k ∈ S.*1) then style
             else delete (property_of k) style)
          d.2 (previous_keys d.1) in
  let set :=
    foldl (λ style '(k, v), <[property_of k := v]> style) cleared S in
  (Bound S.*1, set).

(** Modelled from the spec: binding the directive, whose module
    [directives/style-map.js] is missing. "The directive may only be bound to a
    full-value style attribute, never a fragment combined with another
    dynamic part, and never to element content -- violating either fails
    with an error at bind time." *)
Definition bind (site : Site) (S : StyleInfo) (style : gmap string string)
  : completion (State * gmap string string) :=
  match site with
  | Content =>
      Throw (GenericError "styleMap must be used in the style attribute")
  | Attribute name strings =>
      if bool_decide (name = "style") && (dynamic_parts strings <=? 1)
      then Return (apply S (Unbound, style))
      else Throw (GenericError
                    "styleMap must be the only part in the style attribute")
  end.

(** The inline style after the directive, first bound, renders [S] and then
    [S']. *)
Definition rerender (S S' : StyleInfo) (style : gmap string string)
  : gmap string string :=
  (apply S' (apply S (Unbound, style))).2.

(** The update law read key by key. *)
Definition update_law (S S' : StyleInfo) (style : gmap string string) : Prop :=
  let after := rerender S S' style in
  (∀ k, k ∈ S.*1 → k ∉ S'.*1 → getPropertyValue after (property_of k) = EmptyString)
  ∧ (∀ k v, (k, v) ∈ S' → getPropertyValue after (property_of k) = v)
  ∧ (∀ p, p ∉ property_of <$> (S.*1 ++ S'.*1) →
          getPropertyValue after p = getPropertyValue style p).

End Directive.

End StyleMap.

(** ** The helpers of the styleMap test-suite *)

Module StyleMapTest.

(** [String.prototype.indexOf]: the position of the first occurrence of
    [pat] in [s], or [-1]. *)
Fixpoint indexOf (s pat : string) : Z :=
  if String.prefix pat s then 0%Z
  else match s with
       | EmptyString => (-1)%Z
       | String _ s' =>
           let i := indexOf s' pat in
           if (i <? 0)%Z then (-1)%Z else (i + 1)%Z
       end.

(** [const isChrome41 = ua.indexOf('Chrome/41') > 0], with [ua] the
    browser's user-agent string. *)
Definition isChrome41 (ua : string) : bool :=
  (0 <? indexOf ua "Chrome/41")%Z.

(** [const isIE = ua.indexOf('Trident/') > 0] *)
Definition isIE (ua : string) : bool :=
  (0 <? indexOf ua "Trident/")%Z.

(** The test framework's [test] function and its [skip] property. *)
Inductive TestFunction :=
| test
| test_skip.

Definition skip (t : TestFunction) : TestFunction := test_skip.

(** [(test) => isIE || isChrome41 ? test.skip : test] *)
Definition testIfSupportsCSSVariables (ua : string) (t : TestFunction)
  : TestFunction :=
  if isIE ua || isChrome41 ua then skip t else t.

End StyleMapTest.

(** * Properties *)

Import JS RollupCommon Runtime.

#[local] Arguments Ascii.eqb : simpl never.
#[local] Arguments String.prefix : simpl never.

(** ** Finite maps built by folding [insert] *)

Section FoldInsert.
Context {V : Type}.

Lemma foldl_insert_union (l : list (string * V)) (m : gmap string V) :
  foldl (λ obj '(k, v), <[k := v]> obj) m l = list_to_map (reverse l) ∪ m.
Proof.
  revert m. induction l as [|[k v] l IH]; intros m; simpl.
  - by rewrite (left_id_L ∅ (∪)).
  - rewrite IH, reverse_cons, list_to_map_app. simpl.
    rewrite insert_empty, <- (assoc_L (∪)).
    by rewrite <- insert_union_singleton_l.
Qed.

Lemma foldl_insert_lookup (l : list (string * V)) k v :
  NoDup l.*1 →
  foldl (λ obj '(k, v), <[k := v]> obj) (∅ : gmap string V) l !! k = Some v
  ↔ (k, v) ∈ l.
Proof.
  intros Hnd. rewrite foldl_insert_union, (right_id_L ∅ (∪)).
  rewrite <- elem_of_list_to_map.
  - by rewrite elem_of_reverse.
  - by rewrite fmap_reverse, reverse_Permutation.
Qed.

Lemma foldl_insert_size (l : list (string * V)) :
  NoDup l.*1 →
  size (foldl (λ obj '(k, v), <[k := v]> obj) (∅ : gmap string V) l) = length l.
Proof.
  intros Hnd. rewrite foldl_insert_union, (right_id_L ∅ (∪)).
  rewrite <- (length_reverse l).
  apply map_size_list_to_map.
  by rewrite fmap_reverse, reverse_Permutation.
Qed.

End FoldInsert.

Lemma NoDup_snd_injective {A B : Type} (l : list (A * B)) a1 a2 b :
  NoDup l.*2 → (a1, b) ∈ l → (a2, b) ∈ l → a1 = a2.
Proof.
  induction l as [|[a b'] l IH]; simpl; intros Hnd H1 H2.
  - by apply elem_of_nil in H1.
  - apply NoDup_cons in Hnd as [Hnotin Hnd].
    apply elem_of_cons in H1 as [H1|H1]; apply elem_of_cons in H2 as [H2|H2].
    + congruence.
    + inversion H1; subst. exfalso. apply Hnotin.
      apply list_elem_of_fmap. by exists (a2, b').
    + inversion H2; subst. exfalso. apply Hnotin.
      apply list_elem_of_fmap. by exists (a1, b').
    + by apply IH.
Qed.

(** ** The tables *)

Lemma mangle_names_NoDup : NoDup (Object_keys crossPackagePropertyMangles).
Proof. apply (bool_decide_unpack _). by vm_compute. Qed.

Lemma mangle_tokens_NoDup : NoDup crossPackagePropertyMangles.*2.
Proof. apply (bool_decide_unpack _). by vm_compute. Qed.

Lemma seeded_props_fold :
  seeded_props = foldl (λ obj '(k, v), <[k := v]> obj) ∅ cache_entries.
Proof.
  unfold seeded_props, cache_entries.
  generalize (∅ : gmap string string).
  induction (Object_entries crossPackagePropertyMangles) as [|[n t] l IH];
    intros m; simpl; [done | apply IH].
Qed.

Lemma cache_entries_NoDup : NoDup cache_entries.*1.
Proof. apply (bool_decide_unpack _). by vm_compute. Qed.

Lemma seeded_props_lookup k v :
  seeded_props !! k = Some v
  ↔ ∃ name, (name, v) ∈ crossPackagePropertyMangles ∧ k = "$" +:+ name.
Proof.
  rewrite seeded_props_fold, (foldl_insert_lookup _ _ _ cache_entries_NoDup).
  unfold cache_entries, Object_entries. rewrite list_elem_of_fmap. split.
  - intros [[n t] [Heq Hin]]. simpl in Heq. inversion Heq; subst. by exists n.
  - intros [n [Hin ->]]. by exists (n, v).
Qed.

Lemma seeded_props_size : size seeded_props = length crossPackagePropertyMangles.
Proof.
  rewrite seeded_props_fold, (foldl_insert_size _ cache_entries_NoDup).
  unfold cache_entries. by rewrite length_fmap.
Qed.

(** C10: the Property Mangle Table is injective: two entries with the same
    token have the same name; hence two keys of the seeded name cache that
    map to one token are the same key. *)
Theorem crossPackagePropertyMangles_injective :
  (∀ name1 name2 token,
     (name1, token) ∈ crossPackagePropertyMangles →
     (name2, token) ∈ crossPackagePropertyMangles →
     name1 = name2)
  ∧ (∀ key1 key2 token,
       Props.props (props nameCache) !! key1 = Some token →
       Props.props (props nameCache) !! key2 = Some token →
       key1 = key2).
Proof.
  assert (Hinj : ∀ name1 name2 token,
             (name1, token) ∈ crossPackagePropertyMangles →
             (name2, token) ∈ crossPackagePropertyMangles →
             name1 = name2).
  { intros n1 n2 t. apply NoDup_snd_injective, mangle_tokens_NoDup. }
  split; [exact Hinj|].
  intros k1 k2 t H1 H2. simpl in H1, H2.
  apply seeded_props_lookup in H1 as [n1 [Hin1 ->]].
  apply seeded_props_lookup in H2 as [n2 [Hin2 ->]].
  by rewrite (Hinj n1 n2 t).
Qed.

Lemma crossPackagePropertyMangles_injective_witness :
  ("_parts", "E") ∈ crossPackagePropertyMangles
  ∧ Props.props (props nameCache) !! "$_name" = Some "J"
  ∧ "_parts" = "_parts" ∧ "$_name" = "$_name".
Proof.
  assert (Hin : ("_parts", "E") ∈ crossPackagePropertyMangles).
  { apply (bool_decide_unpack _). by vm_compute. }
  assert (Hlk : Props.props (props nameCache) !! "$_name" = Some "J").
  { by vm_compute. }
  split; [exact Hin|]. split; [exact Hlk|]. split.
  - exact (proj1 crossPackagePropertyMangles_injective "_parts" "_parts" "E" Hin Hin).
  - exact (proj2 crossPackagePropertyMangles_injective "$_name" "$_name" "J" Hlk Hlk).
Defined.

(** ** What [litRollupConfig] returns *)

Lemma litRollupConfig_returns h o entryPoints σ :
  Arg.entryPoints o = Some entryPoints →
  litRollupConfig h (Arg.Obj o) σ =
  Return ([ seederStage h (length σ) entryPoints (default [] (Arg.external o));
            entryStage h (length σ) entryPoints (default [] (Arg.external o)) ],
          σ ++ [nameCache]).
Proof. intros Heq. unfold litRollupConfig. simpl. by rewrite Heq. Qed.

Lemma litRollupConfig_inv h a σ config σ' :
  litRollupConfig h a σ = Return (config, σ') →
  ∃ o entryPoints,
    a = Arg.Obj o ∧ Arg.entryPoints o = Some entryPoints
    ∧ config = [ seederStage h (length σ) entryPoints (default [] (Arg.external o));
                 entryStage h (length σ) entryPoints (default [] (Arg.external o)) ]
    ∧ σ' = σ ++ [nameCache].
Proof.
  destruct a as [| |o]; try discriminate.
  unfold litRollupConfig. simpl.
  destruct (Arg.entryPoints o) as [entryPoints|] eqn:Heq; [|discriminate].
  intros [= <- <-]. by exists o, entryPoints.
Qed.

Lemma terser_in_seederStage h cache entryPoints ext opts :
  terser opts ∈ plugins (seederStage h cache entryPoints ext) →
  opts = terserOptions h cache.
Proof.
  simpl. rewrite !elem_of_cons, elem_of_nil.
  intros [?|[?|[?|[]]]]; congruence.
Qed.

Lemma terser_in_entryStage h cache entryPoints ext opts :
  terser opts ∈ plugins (entryStage h cache entryPoints ext) →
  opts = terserOptions h cache.
Proof.
  simpl. destruct (CHECKSIZE h); simpl;
    rewrite !elem_of_cons, elem_of_nil;
    intros [?|[?|[?|[?|[?|[]]]]]]; congruence.
Qed.

Lemma terser_in_config h cache entryPoints ext st opts :
  st ∈ [ seederStage h cache entryPoints ext; entryStage h cache entryPoints ext ] →
  terser opts ∈ plugins st →
  opts = terserOptions h cache.
Proof.
  rewrite !elem_of_cons, elem_of_nil. intros [->|[->|[]]].
  - apply terser_in_seederStage.
  - apply terser_in_entryStage.
Qed.

(** C2: a call with entry points returns the two stages, each with a terser
    plugin, and the terser options of both refer to one name-cache object,
    created by the call; before either stage runs that object holds, for
    each pair (name, token) of the Property Mangle Table, the key
    ["$" + name] with value token, and nothing else: one entry per pair. *)
Theorem nameCache_preloaded h o entryPoints σ :
  Arg.entryPoints o = Some entryPoints →
  ∃ seeder entry σ' l cache,
    litRollupConfig h (Arg.Obj o) σ = Return ([seeder; entry], σ')
    ∧ (∃ opts, terser opts ∈ plugins seeder ∧ Terser.nameCache opts = l)
    ∧ (∃ opts, terser opts ∈ plugins entry ∧ Terser.nameCache opts = l)
    ∧ (∀ st opts, st ∈ [seeder; entry] → terser opts ∈ plugins st →
                  Terser.nameCache opts = l)
    ∧ σ !! l = None
    ∧ σ' !! l = Some cache
    ∧ (∀ key token,
         Props.props (props cache) !! key = Some token
         ↔ ∃ name, (name, token) ∈ crossPackagePropertyMangles
                   ∧ key = "$" +:+ name)
    ∧ size (Props.props (props cache)) = length crossPackagePropertyMangles.
Proof.
  intros Heq.
  exists (seederStage h (length σ) entryPoints (default [] (Arg.external o))),
         (entryStage h (length σ) entryPoints (default [] (Arg.external o))),
         (σ ++ [nameCache]), (length σ), nameCache.
  split; [by apply litRollupConfig_returns|].
  split; [|split; [|split; [|split; [|split; [|split]]]]].
  - exists (terserOptions h (length σ)). split; [|reflexivity].
    simpl. apply list_elem_of_further, list_elem_of_here.
  - exists (terserOptions h (length σ)). split; [|reflexivity].
    simpl. do 2 apply list_elem_of_further. apply list_elem_of_here.
  - intros st opts Hst Hin. by rewrite (terser_in_config _ _ _ _ _ _ Hst Hin).
  - by apply lookup_ge_None_2.
  - by apply list_lookup_middle.
  - apply seeded_props_lookup.
  - apply seeded_props_size.
Qed.

Lemma nameCache_preloaded_witness :
  ∃ seeder entry σ' l cache,
    litRollupConfig {| process_env := ∅; pathLib_dirname := λ _, "." |}
      (Arg.Obj {| Arg.entryPoints := Some ["lit-html"]; Arg.external := None |})
      [] = Return ([seeder; entry], σ')
    ∧ (∃ opts, terser opts ∈ plugins seeder ∧ Terser.nameCache opts = l)
    ∧ (∃ opts, terser opts ∈ plugins entry ∧ Terser.nameCache opts = l)
    ∧ (∀ st opts, st ∈ [seeder; entry] → terser opts ∈ plugins st →
                  Terser.nameCache opts = l)
    ∧ ([] : list NameCache) !! l = None
    ∧ σ' !! l = Some cache
    ∧ (∀ key token,
         Props.props (props cache) !! key = Some token
         ↔ ∃ name, (name, token) ∈ crossPackagePropertyMangles
                   ∧ key = "$" +:+ name)
    ∧ size (Props.props (props cache)) = length crossPackagePropertyMangles.
Proof.
  apply (nameCache_preloaded
           {| process_env := ∅; pathLib_dirname := λ _, "." |}
           {| Arg.entryPoints := Some ["lit-html"]; Arg.external := None |}
           ["lit-html"] []).
  reflexivity.
Defined.

(** C9: called with no argument, [litRollupConfig] throws a ReferenceError
    for [options]; it returns exactly when it is given an argument object
    that supplies [entryPoints]. *)
Theorem litRollupConfig_without_argument h σ :
  litRollupConfig h Arg.Undefined σ = Throw (ReferenceError "options")
  ∧ ∀ a, (∃ r, litRollupConfig h a σ = Return r)
         ↔ (∃ o entryPoints, a = Arg.Obj o ∧ Arg.entryPoints o = Some entryPoints).
Proof.
  split; [reflexivity|]. intros a. split.
  - intros [[config σ'] Hr].
    destruct (litRollupConfig_inv _ _ _ _ _ Hr) as (o & eps & -> & Heq & _).
    by exists o, eps.
  - intros (o & eps & -> & Heq). eexists. by apply litRollupConfig_returns.
Qed.

Lemma litRollupConfig_without_argument_witness :
  (∃ r, litRollupConfig {| process_env := ∅; pathLib_dirname := λ _, "." |}
          (Arg.Obj {| Arg.entryPoints := Some ["lit-html"]; Arg.external := None |})
          [] = Return r)
  ∧ ¬ (∃ r, litRollupConfig {| process_env := ∅; pathLib_dirname := λ _, "." |}
              (Arg.Obj {| Arg.entryPoints := None; Arg.external := Some [] |})
              [] = Return r).
Proof.
  split.
  - apply (proj2 (litRollupConfig_without_argument
                    {| process_env := ∅; pathLib_dirname := λ _, "." |} [])).
    eexists _, _. split; reflexivity.
  - intros Hr.
    apply (proj2 (litRollupConfig_without_argument
                    {| process_env := ∅; pathLib_dirname := λ _, "." |} [])) in Hr.
    destruct Hr as (o & eps & [= <-] & Heq). discriminate.
Defined.

(** ** The property mangler under the configured options *)

Lemma search_caret_not_at_start r s : search (Caret :: r) false s = false.
Proof. induction s as [|c s IH]; simpl; [done | exact IH]. Qed.

Lemma test_leading_underscore s :
  test [Caret; Lit "_"] s = true ↔ ∃ rest, s = String "_" rest.
Proof.
  unfold test. destruct s as [|c s]; simpl.
  - split; [done | by intros [rest ?]].
  - rewrite search_caret_not_at_start, orb_false_r, andb_true_r.
    rewrite Ascii.eqb_eq. split.
    + intros <-. by exists s.
    + intros [rest [= -> _]]. done.
Qed.

Lemma should_mangle_spec o name :
  should_mangle o name = true
  ↔ test (Terser.regex o) name = true ∧ name ∉ Terser.reserved o.
Proof.
  unfold should_mangle. rewrite andb_true_iff, negb_true_iff.
  by rewrite bool_decide_eq_false.
Qed.

(** C1: under the terser options of every stage [litRollupConfig] returns,
    a name of [reservedProperties] keeps its name in the minified output,
    whatever the name cache holds and whatever tokens the minifier invents;
    and a name the mangler does replace begins with an underscore. *)
Theorem reservedProperties_unmangled fresh_token h a σ config σ' st opts cache name :
  litRollupConfig h a σ = Return (config, σ') →
  st ∈ config →
  terser opts ∈ plugins st →
  (name ∈ reservedProperties →
   mangle_property fresh_token (Terser.properties (Terser.mangle opts)) cache name
   = name)
  ∧ (should_mangle (Terser.properties (Terser.mangle opts)) name = true →
     (∃ rest, name = String "_" rest) ∧ name ∉ reservedProperties).
Proof.
  intros Hr Hst Hin.
  destruct (litRollupConfig_inv _ _ _ _ _ Hr) as (o & eps & -> & Heq & -> & ->).
  rewrite (terser_in_config _ _ _ _ _ _ Hst Hin). simpl. split.
  - intros Hres. unfold mangle_property.
    destruct (should_mangle _ name) eqn:Hm; [|done].
    apply should_mangle_spec in Hm as [_ Hnot]. by destruct Hnot.
  - intros Hm. apply should_mangle_spec in Hm as [Ht Hnot]. simpl in Ht, Hnot.
    split; [by apply test_leading_underscore | done].
Qed.

Lemma reservedProperties_unmangled_witness :
  mangle_property (λ _ _, "a")
    (Terser.properties (Terser.mangle (terserOptions
       {| process_env := ∅; pathLib_dirname := λ _, "." |} 0)))
    nameCache "_$litType$" = "_$litType$".
Proof.
  refine (proj1 (reservedProperties_unmangled (λ _ _, "a")
            {| process_env := ∅; pathLib_dirname := λ _, "." |}
            (Arg.Obj {| Arg.entryPoints := Some ["lit-html"]; Arg.external := None |})
            [] _ _
            (seederStage {| process_env := ∅; pathLib_dirname := λ _, "." |}
               0 ["lit-html"] [])
            (terserOptions {| process_env := ∅; pathLib_dirname := λ _, "." |} 0)
            nameCache "_$litType$" _ _ _) _).
  - reflexivity.
  - apply list_elem_of_here.
  - simpl. apply list_elem_of_further, list_elem_of_here.
  - apply (bool_decide_unpack _). by vm_compute.
Defined.

(** Every reserved name does match the mangling regex, and none of them is
    a name of the Property Mangle Table. *)
Lemma reservedProperties_private name :
  name ∈ reservedProperties →
  test [Caret; Lit "_"] name = true
  ∧ name ∉ Object_keys crossPackagePropertyMangles.
Proof.
  unfold reservedProperties. rewrite !elem_of_cons, elem_of_nil.
  intros [->|[->|[->|[->|[->|[]]]]]];
    (split; [reflexivity | apply (bool_decide_unpack _); by vm_compute]).
Qed.

(** ** The seeder module *)









(** ** The order of the stages and the shared cache *)

Lemma run_plugin_terser minify st σ log c o :
  σ !! Terser.nameCache o = Some c →
  run_plugin minify st (σ, log) (terser o)
  = (<[Terser.nameCache o := minify o c (input st)]> σ,
     log ++ [Minified (input st) c]).
Proof. intros Hc. unfold run_plugin. simpl. by rewrite Hc. Qed.

Lemma store_update (σ : list NameCache) c c' :
  <[length σ := c']> (σ ++ [c]) = σ ++ [c'].
Proof.
  rewrite insert_app_r_alt by lia. by rewrite Nat.sub_diag.
Qed.

Lemma run_seederStage minify h entryPoints ext (σ : list NameCache) c log :
  run_stage minify (σ ++ [c], log) (seederStage h (length σ) entryPoints ext)
  = (σ ++ [minify (terserOptions h (length σ)) c (InputFile nameCacheSeederInfile)],
     log ++ [Minified (InputFile nameCacheSeederInfile) c]).
Proof.
  unfold run_stage. cbn [plugins seederStage foldl].
  change (run_plugin minify ?st ?s (virtual ?m)) with s.
  rewrite (run_plugin_terser _ _ _ _ c) by (simpl; by apply list_lookup_middle).
  change (run_plugin minify ?st ?s skipBundleOutput) with s.
  simpl. by rewrite store_update.
Qed.

Lemma run_entryStage minify h entryPoints ext (σ : list NameCache) c log :
  let st := entryStage h (length σ) entryPoints ext in
  run_stage minify (σ ++ [c], log) st
  = (σ ++ [minify (terserOptions h (length σ)) c (input st)],
     log ++ [Minified (input st) c]).
Proof.
  intros st. unfold run_stage, st. cbn [plugins entryStage].
  rewrite foldl_app. cbn [foldl].
  change (run_plugin minify ?st ?s (replace ?v)) with s.
  change (run_plugin minify ?st ?s sourcemaps) with s.
  rewrite (run_plugin_terser _ _ _ _ c) by (simpl; by apply list_lookup_middle).
  change (run_plugin minify ?st ?s summary) with s.
  cbn [Terser.nameCache terserOptions]. rewrite store_update.
  by destruct (CHECKSIZE h).
Qed.

(** C4: the returned array has the name-cache seeder stage first and the
    per-entry stage second; the terser options of both refer to one and the
    same name-cache object; and in a build that runs the stages in array
    order the per-entry stage is minified with the cache as the seeder
    stage's pass left it, never with the cache as it was before. *)
Theorem seeder_stage_before_entry_stage minify h o entryPoints σ :
  Arg.entryPoints o = Some entryPoints →
  ∃ seeder entry σ' cache,
    litRollupConfig h (Arg.Obj o) σ = Return ([seeder; entry], σ')
    ∧ input seeder = InputFile nameCacheSeederInfile
    ∧ input entry
      = InputFiles ((λ name, "development/" +:+ name +:+ ".js") <$> entryPoints)
    ∧ terser (terserOptions h cache) ∈ plugins seeder
    ∧ terser (terserOptions h cache) ∈ plugins entry
    ∧ (∀ st opts, st ∈ [seeder; entry] → terser opts ∈ plugins st →
                  Terser.nameCache opts = cache)
    ∧ σ' !! cache = Some nameCache
    ∧ (run minify [seeder; entry] σ').2
      = [ Minified (input seeder) nameCache;
          Minified (input entry)
            (minify (terserOptions h cache) nameCache (input seeder)) ].
Proof.
  intros Heq.
  exists (seederStage h (length σ) entryPoints (default [] (Arg.external o))),
         (entryStage h (length σ) entryPoints (default [] (Arg.external o))),
         (σ ++ [nameCache]), (length σ).
  split; [by apply litRollupConfig_returns|].
  split; [reflexivity|]. split; [reflexivity|].
  split; [|split; [|split; [|split]]].
  - simpl. apply list_elem_of_further, list_elem_of_here.
  - simpl. do 2 apply list_elem_of_further. apply list_elem_of_here.
  - intros st opts Hst Hin. by rewrite (terser_in_config _ _ _ _ _ _ Hst Hin).
  - by apply list_lookup_middle.
  - unfold run. simpl foldl.
    rewrite run_seederStage, run_entryStage. reflexivity.
Qed.

Lemma seeder_stage_before_entry_stage_witness :
  ∃ seeder entry σ' cache,
    litRollupConfig {| process_env := ∅; pathLib_dirname := λ _, "." |}
      (Arg.Obj {| Arg.entryPoints := Some ["lit-html"]; Arg.external := None |})
      [] = Return ([seeder; entry], σ')
    ∧ input seeder = InputFile nameCacheSeederInfile
    ∧ input entry = InputFiles ["development/lit-html.js"]
    ∧ terser (terserOptions {| process_env := ∅; pathLib_dirname := λ _, "." |} cache)
        ∈ plugins seeder
    ∧ terser (terserOptions {| process_env := ∅; pathLib_dirname := λ _, "." |} cache)
        ∈ plugins entry
    ∧ (∀ st opts, st ∈ [seeder; entry] → terser opts ∈ plugins st →
                  Terser.nameCache opts = cache)
    ∧ σ' !! cache = Some nameCache
    ∧ (run (λ _ c _, c) [seeder; entry] σ').2
      = [ Minified (input seeder) nameCache; Minified (input entry) nameCache ].
Proof.
  apply (seeder_stage_before_entry_stage (λ _ c _, c)
           {| process_env := ∅; pathLib_dirname := λ _, "." |}
           {| Arg.entryPoints := Some ["lit-html"]; Arg.external := None |}
           ["lit-html"] []).
  reflexivity.
Defined.

(** ** Size-check mode *)

Lemma foldl_delete_lookup (keys : list string) (m : gmap string string) i :
  foldl (λ b name, delete name b) m keys !! i
  = if bool_decide (i ∈ keys) then None else m !! i.
Proof.
  revert m. induction keys as [|k keys IH]; intros m; simpl; [done|].
  rewrite IH. destruct (decide (i = k)) as [->|Hne].
  - rewrite lookup_delete_eq.
    rewrite (bool_decide_eq_true_2 (k ∈ k :: keys)) by apply list_elem_of_here.
    by case_bool_decide.
  - rewrite lookup_delete_ne by done.
    rewrite (bool_decide_ext (i ∈ k :: keys) (i ∈ keys)); [done|].
    rewrite elem_of_cons. split; [intros [?|?]; [done|done] | by right].
Qed.

(** The hook leaves no bundle in the table. *)
Lemma generateBundle_empty bundles : generateBundle bundles = ∅.
Proof.
  apply map_eq. intros i. unfold generateBundle.
  rewrite foldl_delete_lookup, lookup_empty.
  case_bool_decide as Hin; [done|].
  destruct (bundles !! i) as [code|] eqn:Hi; [|done].
  exfalso. apply Hin. apply list_elem_of_fmap. exists (i, code).
  split; [done|]. by apply elem_of_map_to_list.
Qed.

Lemma written_seederStage hooks h cache entryPoints ext bundles :
  written hooks (seederStage h cache entryPoints ext) bundles = ∅.
Proof. unfold written. simpl. apply generateBundle_empty. Qed.

Lemma written_entryStage_checksize hooks h cache entryPoints ext bundles :
  CHECKSIZE h = true →
  written hooks (entryStage h cache entryPoints ext) bundles = ∅.
Proof.
  intros Hc. unfold written. simpl. rewrite Hc. simpl.
  apply generateBundle_empty.
Qed.

(** C5: in size-check mode no stage of the configuration writes or copies a
    file (the bundle table is emptied by the last [generateBundle] hook of
    either stage, whatever the earlier hooks did), the per-entry output has
    no source map and the minifier keeps no comment; otherwise comments
    matching ["some"] are kept, the per-entry output has a source map, and
    for every entry point the declaration file [development/<name>.d.ts] is
    copied to the directory of [<name>]. *)
Theorem checksize_mode hooks h o entryPoints σ :
  Arg.entryPoints o = Some entryPoints →
  ∃ seeder entry σ',
    litRollupConfig h (Arg.Obj o) σ = Return ([seeder; entry], σ')
    ∧ (CHECKSIZE h = true →
       (∀ st bundles, st ∈ [seeder; entry] →
                      written hooks st bundles = ∅ ∧ copied st = [])
       ∧ sourcemap (output entry) = Some false
       ∧ (∀ st opts, st ∈ [seeder; entry] → terser opts ∈ plugins st →
                     Terser.comments (Terser.output opts) = VBool false))
    ∧ (CHECKSIZE h = false →
       (∀ st opts, st ∈ [seeder; entry] → terser opts ∈ plugins st →
                   Terser.comments (Terser.output opts) = VString "some")
       ∧ sourcemap (output entry) = Some true
       ∧ (skipBundleOutput ∉ plugins entry)
       ∧ copied entry
         = (λ name, {| Copy.src := "development/" +:+ name +:+ ".d.ts";
                       Copy.dest := pathLib_dirname h name |}) <$> entryPoints).
Proof.
  intros Heq.
  exists (seederStage h (length σ) entryPoints (default [] (Arg.external o))),
         (entryStage h (length σ) entryPoints (default [] (Arg.external o))),
         (σ ++ [nameCache]).
  split; [by apply litRollupConfig_returns|]. split.
  - intros Hc. split; [|split].
    + intros st bundles. rewrite !elem_of_cons, elem_of_nil.
      intros [->|[->|[]]].
      * split; [apply written_seederStage | reflexivity].
      * split; [by apply written_entryStage_checksize|].
        unfold copied. simpl. by rewrite Hc.
    + simpl. by rewrite Hc.
    + intros st opts Hst Hin.
      rewrite (terser_in_config _ _ _ _ _ _ Hst Hin). simpl. by rewrite Hc.
  - intros Hc. split; [|split; [|split]].
    + intros st opts Hst Hin.
      rewrite (terser_in_config _ _ _ _ _ _ Hst Hin). simpl. by rewrite Hc.
    + simpl. by rewrite Hc.
    + simpl. rewrite Hc. simpl. rewrite !elem_of_cons, elem_of_nil.
      intros [?|[?|[?|[?|[?|[]]]]]]; discriminate.
    + unfold copied. simpl. rewrite Hc. simpl. by rewrite app_nil_r.
Qed.

Lemma checksize_mode_witness :
  let on := {| process_env := {["CHECKSIZE" := "1"]}; pathLib_dirname := λ _, "." |} in
  let off := {| process_env := ∅; pathLib_dirname := λ _, "." |} in
  let a := Arg.Obj {| Arg.entryPoints := Some ["lit-html"]; Arg.external := None |} in
  CHECKSIZE on = true
  ∧ CHECKSIZE off = false
  ∧ (∃ seeder entry σ',
       litRollupConfig on a [] = Return ([seeder; entry], σ')
       ∧ (∀ st bundles, st ∈ [seeder; entry] →
                        written (λ _ b, b) st bundles = ∅ ∧ copied st = [])
       ∧ sourcemap (output entry) = Some false
       ∧ (∀ st opts, st ∈ [seeder; entry] → terser opts ∈ plugins st →
                     Terser.comments (Terser.output opts) = VBool false))
  ∧ (∃ seeder entry σ',
       litRollupConfig off a [] = Return ([seeder; entry], σ')
       ∧ sourcemap (output entry) = Some true
       ∧ copied entry
         = [ {| Copy.src := "development/lit-html.d.ts"; Copy.dest := "." |} ]).
Proof.
  intros on off a.
  assert (Hon : CHECKSIZE on = true) by reflexivity.
  assert (Hoff : CHECKSIZE off = false) by reflexivity.
  split; [exact Hon|]. split; [exact Hoff|]. split.
  - destruct (checksize_mode (λ _ b, b) on
                {| Arg.entryPoints := Some ["lit-html"]; Arg.external := None |}
                ["lit-html"] [] eq_refl)
      as (seeder & entry & σ' & Hr & Hset & _).
    exists seeder, entry, σ'. split; [exact Hr|]. exact (Hset Hon).
  - destruct (checksize_mode (λ _ b, b) off
                {| Arg.entryPoints := Some ["lit-html"]; Arg.external := None |}
                ["lit-html"] [] eq_refl)
      as (seeder & entry & σ' & Hr & _ & Hunset).
    exists seeder, entry, σ'. split; [exact Hr|].
    destruct (Hunset Hoff) as (_ & Hmap & _ & Hcopy).
    split; [exact Hmap | exact Hcopy].
Defined.

(** ** The development-flag replacement *)

Lemma string_app_assoc (a b c : string) : (a +:+ b) +:+ c = a +:+ b +:+ c.
Proof.
  induction a as [|x a IH]; [done|].
  change (String x ((a +:+ b) +:+ c) = String x (a +:+ b +:+ c)).
  by rewrite IH.
Qed.

Lemma prefix_String c p d s :
  String.prefix (String c p) (String d s) = Ascii.eqb c d && String.prefix p s.
Proof.
  unfold String.prefix at 1. fold String.prefix.
  destruct (ascii_dec c d) as [->|Hne].
  - by rewrite Ascii.eqb_refl.
  - apply Ascii.eqb_neq in Hne. by rewrite Hne.
Qed.

Lemma prefix_app pat s :
  String.prefix pat s = true ↔ ∃ rest, s = pat +:+ rest.
Proof.
  revert s. induction pat as [|c pat IH]; intros s.
  - split; [intros _; by exists s | intros _; by destruct s].
  - destruct s as [|d s].
    + split; [done | by intros [rest ?]].
    + rewrite prefix_String, andb_true_iff, Ascii.eqb_eq, IH. split.
      * intros [-> [rest ->]]. by exists rest.
      * intros [rest [= -> ->]]. split; [done | by exists rest].
Qed.

Lemma prefix_shorten pat x y :
  String.prefix pat (x +:+ y) = true →
  String.length pat ≤ String.length x →
  String.prefix pat x = true.
Proof.
  revert x. induction pat as [|c pat IH]; intros x Hp Hlen; [by destruct x|].
  destruct x as [|d x]; simpl in Hlen; [lia|].
  change (String d x +:+ y) with (String d (x +:+ y)) in Hp.
  rewrite prefix_String in *. apply andb_true_iff in Hp as [Hc Hp].
  rewrite Hc. simpl. apply IH; [done | lia].
Qed.

Lemma but_last_snoc pat :
  pat ≠ EmptyString → ∃ c, pat = but_last pat +:+ String c EmptyString.
Proof.
  induction pat as [|c pat IH]; [done|]. intros _.
  destruct pat as [|d pat].
  - by exists c.
  - destruct IH as [e He]; [done|]. exists e.
    change (String c (String d pat)
            = String c (but_last (String d pat) +:+ String e EmptyString)).
    by rewrite <- He.
Qed.

Lemma but_last_length pat :
  String.length (but_last pat) = String.length pat - 1.
Proof.
  induction pat as [|c pat IH]; [done|].
  destruct pat as [|d pat]; [done|].
  change (but_last (String c (String d pat)))
    with (String c (but_last (String d pat))).
  simpl String.length in *. lia.
Qed.

Lemma string_length_app (a b : string) :
  String.length (a +:+ b) = String.length a + String.length b.
Proof.
  induction a as [|x a IH]; [done|].
  change (S (String.length (a +:+ b)) = S (String.length a + String.length b)).
  by rewrite IH.
Qed.

Lemma occurs_String pat c s : occurs pat s → occurs pat (String c s).
Proof. intros (a & b & ->). by exists (String c a), b. Qed.

Lemma occurs_prefix pat s : String.prefix pat s = true → occurs pat s.
Proof. intros [rest ->]%prefix_app. by exists EmptyString, rest. Qed.

Lemma replace_from_skip pat rep x rest :
  replace_from pat rep (String.length x) (x +:+ rest)
  = replace_from pat rep 0 rest.
Proof. induction x as [|c x IH]; simpl; [done | exact IH]. Qed.

Lemma replace_text_occurrence pat rep rest :
  pat ≠ EmptyString →
  replace_text pat rep (pat +:+ rest) = rep +:+ replace_text pat rep rest.
Proof.
  destruct pat as [|c pat]; [done|]. intros _. unfold replace_text.
  change (String c pat +:+ rest) with (String c (pat +:+ rest)).
  unfold replace_from at 1. fold replace_from.
  assert (Hp : String.prefix (String c pat) (String c (pat +:+ rest)) = true).
  { apply prefix_app. by exists rest. }
  rewrite Hp.
  replace (String.length (String c pat) - 1) with (String.length pat)
    by (simpl; lia).
  by rewrite replace_from_skip.
Qed.

Lemma replace_text_other pat rep c s :
  String.prefix pat (String c s) = false →
  replace_text pat rep (String c s) = String c (replace_text pat rep s).
Proof.
  intros Hp. unfold replace_text.
  unfold replace_from at 1. fold replace_from. by rewrite Hp.
Qed.

Lemma replace_text_unchanged pat rep s :
  ¬ occurs pat s → replace_text pat rep s = s.
Proof.
  induction s as [|c s IH]; intros Hno; [done|].
  rewrite replace_text_other.
  - rewrite IH; [done|]. intros Hocc. by apply Hno, occurs_String.
  - destruct (String.prefix pat (String c s)) eqn:Hp; [|done].
    destruct Hno. by apply occurs_prefix.
Qed.

Lemma replace_text_first_occurrence pat rep a b :
  pat ≠ EmptyString →
  ¬ occurs pat (a +:+ but_last pat) →
  replace_text pat rep (a +:+ pat +:+ b)
  = a +:+ rep +:+ replace_text pat rep b.
Proof.
  intros Hne. induction a as [|c a IH]; intros Hno.
  - by apply (replace_text_occurrence pat rep b).
  - change (String c a +:+ pat +:+ b) with (String c (a +:+ pat +:+ b)).
    rewrite replace_text_other.
    + rewrite IH; [done|]. intros Hocc. by apply Hno, occurs_String.
    + destruct (String.prefix pat (String c (a +:+ pat +:+ b))) eqn:Hp; [|done].
      destruct Hno. apply occurs_prefix.
      destruct (but_last_snoc pat Hne) as [e He].
      apply (prefix_shorten _ _ (String e b)).
      * rewrite string_app_assoc.
        change (String c a +:+ but_last pat +:+ String e b)
          with (String c (a +:+ but_last pat +:+ String e b)).
        replace (but_last pat +:+ String e b) with (pat +:+ b); [done|].
        rewrite He at 1. by rewrite string_app_assoc.
      * rewrite string_length_app, but_last_length. simpl.
        destruct pat; [done|]. simpl. lia.
Qed.

Lemma occurs_occursb pat s : occurs pat s ↔ occursb pat s = true.
Proof.
  split.
  - intros (a & b & ->). induction a as [|c a IH].
    + assert (Hp : String.prefix pat (pat +:+ b) = true).
      { apply prefix_app. by exists b. }
      change (EmptyString +:+ pat +:+ b) with (pat +:+ b).
      destruct (pat +:+ b); simpl; by rewrite Hp.
    + change (String c a +:+ pat +:+ b) with (String c (a +:+ pat +:+ b)).
      simpl. rewrite IH. apply orb_true_r.
  - induction s as [|c s IH]; simpl.
    + rewrite orb_false_r. apply occurs_prefix.
    + intros [Hp|Hs]%orb_true_iff.
      * by apply occurs_prefix.
      * by apply occurs_String, IH.
Qed.

Lemma not_occurs pat s : occursb pat s = false → ¬ occurs pat s.
Proof. intros Hb Ho%occurs_occursb. congruence. Qed.

Lemma transform_entryStage h cache entryPoints ext code :
  transform (entryStage h cache entryPoints ext) code
  = replace_text "const DEV_MODE = true" "const DEV_MODE = false" code.
Proof.
  unfold transform. cbn [plugins entryStage]. rewrite foldl_app.
  by destruct (CHECKSIZE h).
Qed.

(** C6: the per-entry stage has one replacement, of the text
    [const DEV_MODE = true] by [const DEV_MODE = false], and its source
    transformation is exactly that replacement: every occurrence of the text,
    found from left to right, is replaced, and a source in which this exact
    text does not occur is left as it is. *)
Theorem DEV_MODE_replacement h a σ seeder entry σ' :
  litRollupConfig h a σ = Return ([seeder; entry], σ') →
  replace [("const DEV_MODE = true", "const DEV_MODE = false")] ∈ plugins entry
  ∧ (∀ values, replace values ∈ plugins entry →
               values = [("const DEV_MODE = true", "const DEV_MODE = false")])
  ∧ (∀ code, transform entry code
             = replace_text "const DEV_MODE = true" "const DEV_MODE = false" code)
  ∧ (∀ code, ¬ occurs "const DEV_MODE = true" code → transform entry code = code)
  ∧ (∀ before after,
       ¬ occurs "const DEV_MODE = true" (before +:+ "const DEV_MODE = tru") →
       transform entry (before +:+ "const DEV_MODE = true" +:+ after)
       = before +:+ "const DEV_MODE = false" +:+ transform entry after).
Proof.
  intros Hr.
  destruct (litRollupConfig_inv _ _ _ _ _ Hr) as (o & eps & -> & Heq & Hc & ->).
  injection Hc as -> ->.
  split; [apply list_elem_of_here|]. split; [|split; [|split]].
  - intros values. simpl. destruct (CHECKSIZE h); simpl;
      rewrite !elem_of_cons, elem_of_nil;
      intros [?|[?|[?|[?|[?|[]]]]]]; congruence.
  - intros code. apply transform_entryStage.
  - intros code Hno. rewrite transform_entryStage.
    by apply replace_text_unchanged.
  - intros before after Hno. rewrite !transform_entryStage.
    by apply (replace_text_first_occurrence "const DEV_MODE = true").
Qed.

Lemma DEV_MODE_replacement_witness :
  let h := {| process_env := ∅; pathLib_dirname := λ _, "." |} in
  let entry := entryStage h 0 ["lit-html"] [] in
  transform entry "const DEV_MODE = true; if (DEV_MODE) { check(); }"
  = "const DEV_MODE = false; if (DEV_MODE) { check(); }"
  ∧ transform entry "const DEV_MODE=true; let DEV_MODE = true;"
    = "const DEV_MODE=true; let DEV_MODE = true;".
Proof.
  intros h entry.
  destruct (DEV_MODE_replacement h
              (Arg.Obj {| Arg.entryPoints := Some ["lit-html"]; Arg.external := None |})
              [] (seederStage h 0 ["lit-html"] []) entry [nameCache] eq_refl)
    as (_ & _ & _ & Hsame & Hfirst).
  split.
  - etrans.
    + apply (Hfirst EmptyString "; if (DEV_MODE) { check(); }").
      apply not_occurs. reflexivity.
    + rewrite (Hsame "; if (DEV_MODE) { check(); }")
        by (apply not_occurs; reflexivity).
      reflexivity.
  - apply Hsame. apply not_occurs. reflexivity.
Defined.

(** * The styleMap directive *)

Section StyleMapUpdate.

Variable property_of : string → string.

Lemma set_untouched (S : list (string * string)) (style : gmap string string) p :
  p ∉ property_of <$> S.*1 →
  foldl (λ style '(k, v), <[property_of k := v]> style) style S !! p = style !! p.
Proof.
  revert style. induction S as [|[k v] S IH]; intros style Hp; [done|].
  simpl in *. apply not_elem_of_cons in Hp as [Hne Hp].
  rewrite IH by done. by rewrite lookup_insert_ne.
Qed.

Lemma set_value (S : list (string * string)) (style : gmap string string) k v :
  (k, v) ∈ S →
  (∀ k' v', (k', v') ∈ S → property_of k' = property_of k → v' = v) →
  foldl (λ style '(k, v), <[property_of k := v]> style) style S !! property_of k
  = Some v.
Proof.
  revert style k v. induction S as [|[k0 v0] S IH]; intros style k v Hin Hsame.
  - by apply elem_of_nil in Hin.
  - simpl. destruct (decide (property_of k ∈ property_of <$> S.*1)) as [Hnamed|Hnot].
    + apply list_elem_of_fmap in Hnamed as [k' [Hk' Hin']].
      apply list_elem_of_fmap in Hin' as [[k'' v'] [-> Hin']]. simpl in Hk'.
      assert (v' = v) as ->.
      { apply (Hsame k''); [by apply list_elem_of_further | done]. }
      rewrite Hk'. apply IH; [done|].
      intros k1 v1 Hin1 Heq. apply (Hsame k1); [by apply list_elem_of_further|].
      by rewrite Hk'.
    + rewrite set_untouched by done.
      apply elem_of_cons in Hin as [[= <- <-]|Hin].
      * apply lookup_insert_eq.
      * destruct Hnot. apply list_elem_of_fmap. exists k. split; [done|].
        apply list_elem_of_fmap. by exists (k, v).
Qed.

Lemma clear_untouched (keys prev : list string) (style : gmap string string) p :
  (∀ k, k ∈ prev → k ∉ keys → property_of k ≠ p) →
  foldl (λ style k,
           if bool_decide (k ∈ keys) then style
           else delete (property_of k) style) style prev !! p
  = style !! p.
Proof.
  revert style. induction prev as [|k prev IH]; intros style Hp; [done|].
  simpl. rewrite IH.
  - case_bool_decide as Hk; [done|].
    apply lookup_delete_ne, Hp; [apply list_elem_of_here | done].
  - intros k' Hin. apply Hp. by apply list_elem_of_further.
Qed.

Lemma clear_stays (keys prev : list string) (style : gmap string string) p :
  style !! p = None →
  foldl (λ style k,
           if bool_decide (k ∈ keys) then style
           else delete (property_of k) style) style prev !! p
  = None.
Proof.
  revert style. induction prev as [|k prev IH]; intros style Hp; [done|].
  simpl. apply IH. case_bool_decide; [done|].
  rewrite lookup_delete. by case_decide.
Qed.

Lemma clear_removed (keys prev : list string) (style : gmap string string) k :
  k ∈ prev → k ∉ keys →
  foldl (λ style k,
           if bool_decide (k ∈ keys) then style
           else delete (property_of k) style) style prev !! property_of k
  = None.
Proof.
  revert style. induction prev as [|k0 prev IH]; intros style Hin Hk.
  - by apply elem_of_nil in Hin.
  - simpl. apply elem_of_cons in Hin as [->|Hin].
    + apply clear_stays. rewrite bool_decide_eq_false_2 by done.
      apply lookup_delete_eq.
    + by apply IH.
Qed.

End StyleMapUpdate.

Lemma rerender_unfold property_of (S S' : list (string * string))
    (style : gmap string string) :
  StyleMap.rerender property_of S S' style
  = foldl (λ style '(k, v), <[property_of k := v]> style)
      (foldl (λ style k,
                if bool_decide (k ∈ S'.*1) then style
                else delete (property_of k) style)
         (foldl (λ style '(k, v), <[property_of k := v]> style) style S)
         S.*1)
      S'.
Proof. reflexivity. Qed.

(** C7, as the directive does it: after rendering [S] and then [S'], a key
    of [S] whose CSS property no key of [S'] names reads as the empty
    string; a key of [S'] reads as its value in [S'], unless another key of
    [S'] names the same property with another value; a property that no key
    of either map names, such as a statically declared one, is as it was;
    and after the empty map every key of [S] reads as the empty string. *)
Theorem styleMap_update property_of (S S' : list (string * string))
    (style : gmap string string) :
  let after := StyleMap.rerender property_of S S' style in
  (∀ k, k ∈ S.*1 → property_of k ∉ property_of <$> S'.*1 →
        StyleMap.getPropertyValue after (property_of k) = EmptyString)
  ∧ (∀ k v, (k, v) ∈ S' →
            (∀ k' v', (k', v') ∈ S' → property_of k' = property_of k → v' = v) →
            StyleMap.getPropertyValue after (property_of k) = v)
  ∧ (∀ p, p ∉ property_of <$> (S.*1 ++ S'.*1) →
          StyleMap.getPropertyValue after p = StyleMap.getPropertyValue style p)
  ∧ (S' = [] → ∀ k, k ∈ S.*1 →
                    StyleMap.getPropertyValue after (property_of k) = EmptyString).
Proof.
  intros after.
  assert (Hcleared : ∀ k, k ∈ S.*1 → property_of k ∉ property_of <$> S'.*1 →
                          StyleMap.getPropertyValue after (property_of k) = EmptyString).
  { intros k Hk Hnot. unfold StyleMap.getPropertyValue, after.
    rewrite rerender_unfold, set_untouched by done.
    rewrite clear_removed; [done | done |].
    intros Hin. apply Hnot. apply list_elem_of_fmap. by exists k. }
  split; [exact Hcleared|]. split; [|split].
  - intros k v Hin Hsame. unfold StyleMap.getPropertyValue, after.
    rewrite rerender_unfold. by rewrite (set_value _ _ _ k v).
  - intros p Hp. unfold StyleMap.getPropertyValue, after.
    rewrite fmap_app in Hp. apply not_elem_of_app in Hp as [HpS HpS'].
    rewrite rerender_unfold, set_untouched by done.
    rewrite clear_untouched.
    + by rewrite set_untouched.
    + intros k Hk _ <-. apply HpS. apply list_elem_of_fmap. by exists k.
  - intros -> k Hk. apply Hcleared; [done|]. apply not_elem_of_nil.
Qed.

Lemma styleMap_update_witness :
  let S := [("marginTop", "2px"); ("padding-bottom", "4px"); ("opacity", "0.5")] in
  let S' := [("marginTop", "4px"); ("paddingBottom", "8px")] in
  let after := StyleMap.rerender StyleMap.css_property S S' {["height" := "1px"]} in
  StyleMap.getPropertyValue after "opacity" = EmptyString
  ∧ StyleMap.getPropertyValue after "padding-bottom" = "8px"
  ∧ StyleMap.getPropertyValue after "height" = "1px".
Proof.
  intros S S' after.
  destruct (styleMap_update StyleMap.css_property S S' {["height" := "1px"]})
    as (Hcleared & Hset & Hother & _).
  split; [|split].
  - apply (Hcleared "opacity").
    + apply (bool_decide_unpack _). by vm_compute.
    + apply (bool_decide_unpack _). by vm_compute.
  - apply (Hset "paddingBottom" "8px").
    + apply (bool_decide_unpack _). by vm_compute.
    + intros k' v'. unfold S'. rewrite !elem_of_cons, elem_of_nil.
      intros [[= -> ->]|[[= -> ->]|[]]]; [discriminate | done].
  - etrans; [apply (Hother "height")|reflexivity].
    apply (bool_decide_unpack _). by vm_compute.
Defined.

(** Counterexample for C7, on the maps of the test 'adds and updates
    properties': the key ['padding-bottom'] is in the first map and not in
    the second, and its property reads ["8px"], not the empty string, since
    the second map names the same property as [paddingBottom]. *)
Lemma styleMap_update_law_fails :
  ¬ StyleMap.update_law StyleMap.css_property
      [("marginTop", "2px"); ("padding-bottom", "4px"); ("opacity", "0.5")]
      [("marginTop", "4px"); ("paddingBottom", "8px"); ("opacity", "0.55")]
      ∅.
Proof.
  intros [Hcleared _].
  specialize (Hcleared "padding-bottom").
  assert (Hread : StyleMap.getPropertyValue
            (StyleMap.rerender StyleMap.css_property
               [("marginTop", "2px"); ("padding-bottom", "4px"); ("opacity", "0.5")]
               [("marginTop", "4px"); ("paddingBottom", "8px"); ("opacity", "0.55")]
               ∅)
            (StyleMap.css_property "padding-bottom") = "8px").
  { by vm_compute. }
  rewrite Hread in Hcleared.
  assert (Habsurd : "8px" = EmptyString).
  { apply Hcleared; apply (bool_decide_unpack _); by vm_compute. }
  discriminate.
Qed.

(** The test-suite's cases, run on the model. *)
Example adds_and_updates_properties :
  let first := (StyleMap.apply StyleMap.css_property
      [("marginTop", "2px"); ("padding-bottom", "4px"); ("opacity", "0.5")]
      (StyleMap.Unbound, ∅)) in
  let second := StyleMap.apply StyleMap.css_property
      [("marginTop", "4px"); ("paddingBottom", "8px"); ("opacity", "0.55")] first in
  (StyleMap.getPropertyValue first.2 <$> ["margin-top"; "padding-bottom"; "opacity"])
  = ["2px"; "4px"; "0.5"]
  ∧ (StyleMap.getPropertyValue second.2 <$> ["margin-top"; "padding-bottom"; "opacity"])
    = ["4px"; "8px"; "0.55"].
Proof. by vm_compute. Qed.

Example works_with_static_properties :
  let static := {["height" := "1px"; "color" := "red"]} : gmap string string in
  let first := (StyleMap.apply StyleMap.css_property
      [("marginTop", "2px"); ("padding-bottom", "4px")] (StyleMap.Unbound, static)) in
  let second := StyleMap.apply StyleMap.css_property [] first in
  (StyleMap.getPropertyValue first.2
     <$> ["height"; "color"; "margin-top"; "padding-bottom"])
  = ["1px"; "red"; "2px"; "4px"]
  ∧ (StyleMap.getPropertyValue second.2
       <$> ["height"; "color"; "margin-top"; "padding-bottom"])
    = ["1px"; "red"; EmptyString; EmptyString].
Proof. by vm_compute. Qed.

Example adds_and_removes_CSS_variables :
  let first := StyleMap.apply StyleMap.css_property [("--size", "2px")]
                 (StyleMap.Unbound, ∅) in
  let second := StyleMap.apply StyleMap.css_property [("--size", "4px")] first in
  let third := StyleMap.apply StyleMap.css_property [] second in
  (StyleMap.getPropertyValue first.2 "--size",
   StyleMap.getPropertyValue second.2 "--size",
   StyleMap.getPropertyValue third.2 "--size") = ("2px", "4px", EmptyString).
Proof. by vm_compute. Qed.

(** C8: bound to element content, to an attribute that is not [style], or
    to an attribute value with a second dynamic part, the directive throws
    when it is bound, whatever the style map; bound as the only dynamic part
    of a [style] attribute, with or without static text around it, it
    renders. *)
Theorem styleMap_bind_throws property_of (S : list (string * string))
    (style : gmap string string) :
  (∃ e, StyleMap.bind property_of StyleMap.Content S style = Throw e)
  ∧ (∀ name strings, name ≠ "style" →
       ∃ e, StyleMap.bind property_of (StyleMap.Attribute name strings) S style
            = Throw e)
  ∧ (∀ name strings, 1 < StyleMap.dynamic_parts strings →
       ∃ e, StyleMap.bind property_of (StyleMap.Attribute name strings) S style
            = Throw e)
  ∧ (∀ before after,
       StyleMap.bind property_of (StyleMap.Attribute "style" [before; after]) S style
       = Return (StyleMap.apply property_of S (StyleMap.Unbound, style))).
Proof.
  split; [by eexists|]. split; [|split; [|reflexivity]].
  - intros name strings Hname. unfold StyleMap.bind.
    rewrite bool_decide_eq_false_2 by done. by eexists.
  - intros name strings Hparts. unfold StyleMap.bind.
    assert ((StyleMap.dynamic_parts strings <=? 1) = false) as ->
      by (apply Nat.leb_gt; lia).
    rewrite andb_false_r. by eexists.
Qed.

Lemma styleMap_bind_throws_witness :
  (∃ e, StyleMap.bind StyleMap.css_property
          (StyleMap.Attribute "id" [EmptyString; EmptyString]) [] ∅ = Throw e)
  ∧ (∃ e, StyleMap.bind StyleMap.css_property
            (StyleMap.Attribute "style" [EmptyString; " "; EmptyString]) [] ∅
          = Throw e).
Proof.
  destruct (styleMap_bind_throws StyleMap.css_property [] ∅)
    as (_ & Hname & Hparts & _).
  split.
  - apply Hname. discriminate.
  - apply Hparts. unfold StyleMap.dynamic_parts. simpl. lia.
Defined.

(** The suite's binding with static text around the directive renders. *)
Example works_with_static_text :
  StyleMap.bind StyleMap.css_property
    (StyleMap.Attribute "style" ["height: 1px; "; " color: red"])
    [("marginTop", "2px")] ∅
  = Return (StyleMap.Bound ["marginTop"], {["margin-top" := "2px"]}).
Proof. by vm_compute. Qed.

(** * Further properties of rollup-common.js *)

(** X1: [skipBundleOutput.generateBundle] leaves no bundle in the table it
    is given, whatever the table holds: every file name looks up to nothing
    afterwards, and running the hook again changes nothing. *)
Theorem generateBundle_deletes_every_bundle (bundles : gmap string string) :
  (∀ name, generateBundle bundles !! name = None)
  ∧ size (generateBundle bundles) = 0
  ∧ generateBundle (generateBundle bundles) = generateBundle bundles.
Proof.
  rewrite !generateBundle_empty. split; [|split].
  - intros name. apply lookup_empty.
  - apply map_size_empty.
  - reflexivity.
Qed.

(** X2: every returning call allocates a name cache of its own: the
    location was unused before the call, holds the seeded cache after it,
    all objects already in the store are as they were, and a later call on
    the resulting store gives its stages a different cache location. *)
Theorem litRollupConfig_fresh_cache h1 h2 a1 a2 σ config1 σ1 config2 σ2 :
  litRollupConfig h1 a1 σ = Return (config1, σ1) →
  litRollupConfig h2 a2 σ1 = Return (config2, σ2) →
  ∃ cache1 cache2,
    σ !! cache1 = None
    ∧ σ1 !! cache1 = Some nameCache
    ∧ (∀ l c, σ !! l = Some c → σ1 !! l = Some c)
    ∧ (∀ st opts, st ∈ config1 → terser opts ∈ plugins st →
                  Terser.nameCache opts = cache1)
    ∧ (∀ st opts, st ∈ config2 → terser opts ∈ plugins st →
                  Terser.nameCache opts = cache2)
    ∧ cache1 ≠ cache2
    ∧ σ2 !! cache1 = Some nameCache.
Proof.
  intros Hr1 Hr2.
  destruct (litRollupConfig_inv _ _ _ _ _ Hr1) as (o1 & eps1 & -> & _ & -> & ->).
  destruct (litRollupConfig_inv _ _ _ _ _ Hr2) as (o2 & eps2 & -> & _ & -> & ->).
  exists (length σ), (length (σ ++ [nameCache])).
  split; [by apply lookup_ge_None_2|].
  split; [by apply list_lookup_middle|].
  split; [intros l c Hl; by apply lookup_app_l_Some|].
  split; [|split; [|split]].
  - intros st opts Hst Hin. by rewrite (terser_in_config _ _ _ _ _ _ Hst Hin).
  - intros st opts Hst Hin. by rewrite (terser_in_config _ _ _ _ _ _ Hst Hin).
  - rewrite length_app. simpl. lia.
  - apply lookup_app_l_Some. by apply list_lookup_middle.
Qed.

Lemma litRollupConfig_fresh_cache_witness :
  let h := {| process_env := ∅; pathLib_dirname := λ _, "." |} in
  let a := Arg.Obj {| Arg.entryPoints := Some ["lit-html"]; Arg.external := None |} in
  ∃ cache1 cache2,
    ([] : list NameCache) !! cache1 = None
    ∧ [nameCache] !! cache1 = Some nameCache
    ∧ (∀ l c, ([] : list NameCache) !! l = Some c → [nameCache] !! l = Some c)
    ∧ (∀ st opts, st ∈ [seederStage h 0 ["lit-html"] []; entryStage h 0 ["lit-html"] []] →
                  terser opts ∈ plugins st → Terser.nameCache opts = cache1)
    ∧ (∀ st opts, st ∈ [seederStage h 1 ["lit-html"] []; entryStage h 1 ["lit-html"] []] →
                  terser opts ∈ plugins st → Terser.nameCache opts = cache2)
    ∧ cache1 ≠ cache2
    ∧ [nameCache; nameCache] !! cache1 = Some nameCache.
Proof.
  intros h a.
  apply (litRollupConfig_fresh_cache h h a a []
           [seederStage h 0 ["lit-html"] []; entryStage h 0 ["lit-html"] []]
           [nameCache]
           [seederStage h 1 ["lit-html"] []; entryStage h 1 ["lit-html"] []]
           [nameCache; nameCache]); reflexivity.
Defined.

(** X3: the call throws a ReferenceError, for [options], exactly when no
    argument was passed, and a TypeError exactly when the argument is
    [null] or an object without [entryPoints], whether or not [external] is
    supplied; it throws nothing else. *)
Theorem litRollupConfig_throws h a σ :
  (∀ identifier,
     litRollupConfig h a σ = Throw (ReferenceError identifier)
     ↔ a = Arg.Undefined ∧ identifier = "options")
  ∧ ((∃ message, litRollupConfig h a σ = Throw (TypeError message))
     ↔ a = Arg.Null ∨ ∃ o, a = Arg.Obj o ∧ Arg.entryPoints o = None)
  ∧ (∀ message, litRollupConfig h a σ ≠ Throw (GenericError message)).
Proof.
  destruct a as [| |o]; unfold litRollupConfig; simpl.
  - split; [|split].
    + intros identifier. split; [by intros [= <-] | by intros [_ ->]].
    + split; [by intros [message ?] | intros [?|(o & ? & _)]; discriminate].
    + discriminate.
  - split; [|split].
    + intros identifier. split; [discriminate | by intros [? _]].
    + split; [by left | by eexists].
    + discriminate.
  - destruct (Arg.entryPoints o) as [eps|] eqn:Heq.
    + split; [|split].
      * intros identifier. split; [discriminate | by intros [? _]].
      * split; [by intros [message ?]|].
        intros [?|(o' & [= <-] & Hnone)]; [discriminate | congruence].
      * discriminate.
    + split; [|split].
      * intros identifier. split; [discriminate | by intros [? _]].
      * split; [|by eexists]. intros _. right. by exists o.
      * discriminate.
Qed.

Lemma litRollupConfig_throws_witness :
  ∃ message,
    litRollupConfig {| process_env := ∅; pathLib_dirname := λ _, "." |}
      (Arg.Obj {| Arg.entryPoints := None; Arg.external := Some ["lit-html"] |}) []
    = Throw (TypeError message).
Proof.
  apply (proj1 (proj2 (litRollupConfig_throws
                         {| process_env := ∅; pathLib_dirname := λ _, "." |}
                         (Arg.Obj {| Arg.entryPoints := None;
                                     Arg.external := Some ["lit-html"] |})
                         []))).
  right. eexists. split; reflexivity.
Defined.

Lemma string_app_inj_r (a b c : string) : a +:+ c = b +:+ c → a = b.
Proof.
  revert b. induction a as [|x a IH]; intros b Heq.
  - destruct b as [|y b]; [done|].
    apply (f_equal String.length) in Heq.
    rewrite !string_length_app in Heq. simpl in Heq. lia.
  - destruct b as [|y b].
    + apply (f_equal String.length) in Heq.
      rewrite !string_length_app in Heq. simpl in Heq. lia.
    + change (String x (a +:+ c) = String y (b +:+ c)) in Heq.
      injection Heq as -> Heq. by rewrite (IH b Heq).
Qed.

Lemma development_path_inj :
  Inj (=) (=) (λ name : string, "development/" +:+ name +:+ ".js").
Proof.
  intros name1 name2 Heq.
  apply (inj (String.append "development/")) in Heq.
  by apply string_app_inj_r in Heq.
Qed.

Lemma import_statement_path name :
  import_statement name
  = "import './" +:+ ("development/" +:+ name +:+ ".js") +:+ "';".
Proof.
  unfold import_statement.
  change "import './development/" with ("import './" +:+ "development/").
  change ".js';" with (".js" +:+ "';").
  by rewrite !string_app_assoc.
Qed.

(** X4: the per-entry stage takes one input per entry point, in list
    order, at [development/<name>.js]; distinct entry points give distinct
    inputs (and a repeated one is repeated); and the module the seeder
    stage's virtual plugin serves under the seeder's input name imports
    exactly these inputs, in the same order, before its property reads. *)
Theorem entry_inputs h o entryPoints σ :
  Arg.entryPoints o = Some entryPoints →
  ∃ seeder entry σ' paths,
    litRollupConfig h (Arg.Obj o) σ = Return ([seeder; entry], σ')
    ∧ input entry = InputFiles paths
    ∧ length paths = length entryPoints
    ∧ (∀ i name, entryPoints !! i = Some name →
                 paths !! i = Some ("development/" +:+ name +:+ ".js"))
    ∧ (NoDup paths ↔ NoDup entryPoints)
    ∧ input seeder = InputFile nameCacheSeederInfile
    ∧ virtual
        [(nameCacheSeederInfile,
          join newline
            (((λ path, "import './" +:+ path +:+ "';") <$> paths)
             ++ (property_read <$> Object_keys crossPackagePropertyMangles)))]
      ∈ plugins seeder.
Proof.
  intros Heq.
  exists (seederStage h (length σ) entryPoints (default [] (Arg.external o))),
         (entryStage h (length σ) entryPoints (default [] (Arg.external o))),
         (σ ++ [nameCache]),
         ((λ name, "development/" +:+ name +:+ ".js") <$> entryPoints).
  split; [by apply litRollupConfig_returns|].
  split; [reflexivity|]. split; [apply length_fmap|].
  split; [|split; [|split; [reflexivity|]]].
  - intros i name Hi. by rewrite list_lookup_fmap, Hi.
  - apply (@NoDup_fmap _ _ _ development_path_inj).
  - assert (Hsame : nameCacheSeederContents entryPoints
             = join newline
                 (((λ path, "import './" +:+ path +:+ "';")
                     <$> ((λ name, "development/" +:+ name +:+ ".js") <$> entryPoints))
                  ++ (property_read <$> Object_keys crossPackagePropertyMangles))).
    { change (nameCacheSeederContents entryPoints)
        with (join newline
                ((import_statement <$> entryPoints)
                 ++ (property_read <$> Object_keys crossPackagePropertyMangles))).
      rewrite <- list_fmap_compose. do 2 f_equal.
      apply list_fmap_ext. intros i name _. apply import_statement_path. }
    rewrite <- Hsame. apply list_elem_of_here.
Qed.

Lemma entry_inputs_witness :
  ∃ seeder entry σ' paths,
    litRollupConfig {| process_env := ∅; pathLib_dirname := λ _, "." |}
      (Arg.Obj {| Arg.entryPoints := Some ["lit-html"; "directives/style-map"];
                  Arg.external := None |}) []
    = Return ([seeder; entry], σ')
    ∧ input entry = InputFiles paths
    ∧ length paths = 2
    ∧ (∀ i name, ["lit-html"; "directives/style-map"] !! i = Some name →
                 paths !! i = Some ("development/" +:+ name +:+ ".js"))
    ∧ (NoDup paths ↔ NoDup ["lit-html"; "directives/style-map"])
    ∧ input seeder = InputFile nameCacheSeederInfile
    ∧ virtual
        [(nameCacheSeederInfile,
          join newline
            (((λ path, "import './" +:+ path +:+ "';") <$> paths)
             ++ (property_read <$> Object_keys crossPackagePropertyMangles)))]
      ∈ plugins seeder.
Proof.
  apply (entry_inputs {| process_env := ∅; pathLib_dirname := λ _, "." |}
           {| Arg.entryPoints := Some ["lit-html"; "directives/style-map"];
              Arg.external := None |}
           ["lit-html"; "directives/style-map"] []).
  reflexivity.
Defined.

(** X5: the mangle options do not mask the Property Mangle Table: every
    name of the table matches the options' regex, is not in their reserved
    list, and has its token in the seeded cache under ["$" + name]; its
    token in turn neither matches the regex nor is reserved, so a token
    is never mangled again. *)
Theorem mangle_table_eligible h cache name token :
  (name, token) ∈ crossPackagePropertyMangles →
  let o := Terser.properties (Terser.mangle (terserOptions h cache)) in
  JS.test (Terser.regex o) name = true
  ∧ (name ∉ Terser.reserved o)
  ∧ Props.props (props nameCache) !! ("$" +:+ name) = Some token
  ∧ JS.test (Terser.regex o) token = false
  ∧ token ∉ Terser.reserved o.
Proof.
  intros Hin o.
  assert (Hcache : Props.props (props nameCache) !! ("$" +:+ name) = Some token).
  { apply seeded_props_lookup. by exists name. }
  split; [|split; [|split; [exact Hcache|]]]; clear Hcache;
    unfold crossPackagePropertyMangles in Hin;
    rewrite !elem_of_cons, elem_of_nil in Hin;
    destruct Hin as [Hin|[Hin|[Hin|[Hin|[Hin|[Hin|[Hin|[Hin|[Hin|[Hin|[Hin|[]]]]]]]]]]]];
    injection Hin as -> ->;
    first [ reflexivity
          | split; [reflexivity | apply (bool_decide_unpack _); by vm_compute]
          | apply (bool_decide_unpack _); by vm_compute ].
Qed.

Lemma mangle_table_eligible_witness :
  let o := Terser.properties (Terser.mangle (terserOptions
             {| process_env := ∅; pathLib_dirname := λ _, "." |} 0)) in
  JS.test (Terser.regex o) "_commitValue" = true
  ∧ ("_commitValue" ∉ Terser.reserved o)
  ∧ Props.props (props nameCache) !! "$_commitValue" = Some "L"
  ∧ JS.test (Terser.regex o) "L" = false
  ∧ "L" ∉ Terser.reserved o.
Proof.
  apply (mangle_table_eligible
           {| process_env := ∅; pathLib_dirname := λ _, "." |} 0
           "_commitValue" "L").
  apply (bool_decide_unpack _). by vm_compute.
Defined.

Lemma CHECKSIZE_true h :
  CHECKSIZE h = true
  ↔ ∃ value, process_env h !! "CHECKSIZE" = Some value ∧ value ≠ EmptyString.
Proof.
  unfold CHECKSIZE. destruct (process_env h !! "CHECKSIZE") as [value|].
  - rewrite negb_true_iff, String.eqb_neq. split.
    + intros Hne. by exists value.
    + by intros (value' & [= <-] & Hne).
  - split; [done | by intros (value & ? & _)].
Qed.

(** X6: size-check mode is on exactly when the environment variable
    CHECKSIZE is set to a non-empty string, whatever the string says:
    exactly then the per-entry stage ends in [skipBundleOutput], has no
    [copy] plugin and no source map; the seeder stage ends in
    [skipBundleOutput] in either mode. *)
Theorem checksize_environment h o entryPoints σ :
  Arg.entryPoints o = Some entryPoints →
  ∃ seeder entry σ',
    litRollupConfig h (Arg.Obj o) σ = Return ([seeder; entry], σ')
    ∧ last (plugins seeder) = Some skipBundleOutput
    ∧ (last (plugins entry) = Some skipBundleOutput
       ↔ ∃ value, process_env h !! "CHECKSIZE" = Some value
                  ∧ value ≠ EmptyString)
    ∧ (sourcemap (output entry) = Some false
       ↔ ∃ value, process_env h !! "CHECKSIZE" = Some value
                  ∧ value ≠ EmptyString)
    ∧ ((∃ targets, copy targets ∈ plugins entry)
       ↔ process_env h !! "CHECKSIZE" = None
         ∨ process_env h !! "CHECKSIZE" = Some EmptyString).
Proof.
  intros Heq.
  exists (seederStage h (length σ) entryPoints (default [] (Arg.external o))),
         (entryStage h (length σ) entryPoints (default [] (Arg.external o))),
         (σ ++ [nameCache]).
  split; [by apply litRollupConfig_returns|]. split; [reflexivity|].
  rewrite <- CHECKSIZE_true.
  assert (Hoff : CHECKSIZE h = false
                 ↔ process_env h !! "CHECKSIZE" = None
                   ∨ process_env h !! "CHECKSIZE" = Some EmptyString).
  { unfold CHECKSIZE. destruct (process_env h !! "CHECKSIZE") as [value|].
    - rewrite negb_false_iff, String.eqb_eq. split.
      + intros ->. by right.
      + by intros [?|[= ->]].
    - split; [by left | done]. }
  rewrite <- Hoff. simpl. destruct (CHECKSIZE h); simpl.
  - split; [done|]. split; [done|]. split; [|done].
    intros [targets Hin]. rewrite !elem_of_cons, elem_of_nil in Hin.
    destruct Hin as [?|[?|[?|[?|[?|[]]]]]]; discriminate.
  - split; [split; discriminate|]. split; [split; discriminate|].
    split; [done|]. intros _. eexists.
    do 4 apply list_elem_of_further. apply list_elem_of_here.
Qed.

Lemma checksize_environment_witness :
  ∃ seeder entry σ',
    litRollupConfig
      {| process_env := {["CHECKSIZE" := "0"]}; pathLib_dirname := λ _, "." |}
      (Arg.Obj {| Arg.entryPoints := Some ["lit-html"]; Arg.external := None |}) []
    = Return ([seeder; entry], σ')
    ∧ last (plugins entry) = Some skipBundleOutput
    ∧ sourcemap (output entry) = Some false.
Proof.
  destruct (checksize_environment
              {| process_env := {["CHECKSIZE" := "0"]}; pathLib_dirname := λ _, "." |}
              {| Arg.entryPoints := Some ["lit-html"]; Arg.external := None |}
              ["lit-html"] [] eq_refl)
    as (seeder & entry & σ' & Hr & _ & Hlast & Hmap & _).
  exists seeder, entry, σ'. split; [exact Hr|].
  assert (Hset : ∃ value,
             ({["CHECKSIZE" := "0"]} : gmap string string) !! "CHECKSIZE" = Some value
             ∧ value ≠ EmptyString).
  { exists "0". split; [reflexivity | discriminate]. }
  split; [by apply Hlast | by apply Hmap].
Defined.

(** * The helpers of the styleMap test-suite *)

Lemma indexOf_lower_bound s pat : (-1 ≤ StyleMapTest.indexOf s pat)%Z.
Proof.
  induction s as [|c s IH]; simpl.
  - destruct (String.prefix pat EmptyString); lia.
  - destruct (String.prefix pat (String c s)); [lia|].
    destruct (Z.ltb_spec (StyleMapTest.indexOf s pat) 0); lia.
Qed.

Lemma indexOf_found s pat :
  (0 ≤ StyleMapTest.indexOf s pat)%Z ↔ occurs pat s.
Proof.
  rewrite occurs_occursb. induction s as [|c s IH]; simpl.
  - destruct (String.prefix pat EmptyString); simpl; [done|]. split; [lia|done].
  - destruct (String.prefix pat (String c s)); simpl; [done|].
    rewrite <- IH.
    destruct (Z.ltb_spec (StyleMapTest.indexOf s pat) 0); lia.
Qed.

Lemma indexOf_positive s pat :
  (0 <? StyleMapTest.indexOf s pat)%Z = true
  ↔ String.prefix pat s = false ∧ occurs pat s.
Proof.
  rewrite Z.ltb_lt. destruct s as [|c s].
  - simpl. destruct (String.prefix pat EmptyString) eqn:Hp.
    + split; [lia | by intros [? _]].
    + split; [lia|]. intros [_ Ho].
      apply occurs_occursb in Ho. simpl in Ho. rewrite Hp in Ho. done.
  - change (StyleMapTest.indexOf (String c s) pat)
      with (if String.prefix pat (String c s) then 0%Z
            else let i := StyleMapTest.indexOf s pat in
                 if (i <? 0)%Z then (-1)%Z else (i + 1)%Z).
    destruct (String.prefix pat (String c s)) eqn:Hp.
    + split; [lia | by intros [? _]].
    + simpl. rewrite (occurs_occursb pat (String c s)). simpl. rewrite Hp. simpl.
      rewrite <- occurs_occursb, <- indexOf_found.
      destruct (Z.ltb_spec (StyleMapTest.indexOf s pat) 0); split;
        try lia; intros [_ ?]; lia.
Qed.

(** X7: the browser checks of the test-suite look for their token after
    the first character only: [isChrome41] (and likewise [isIE]) holds
    exactly when the user-agent string contains the token and does not begin
    with it; so the CSS-variable test is skipped exactly when one of the two
    tokens occurs in, but not at the start of, the user-agent string, and
    runs otherwise. *)
Theorem testIfSupportsCSSVariables_skips ua :
  (StyleMapTest.isChrome41 ua = true
   ↔ String.prefix "Chrome/41" ua = false ∧ occurs "Chrome/41" ua)
  ∧ (StyleMapTest.isIE ua = true
     ↔ String.prefix "Trident/" ua = false ∧ occurs "Trident/" ua)
  ∧ (StyleMapTest.testIfSupportsCSSVariables ua StyleMapTest.test
     = StyleMapTest.test_skip
     ↔ (String.prefix "Trident/" ua = false ∧ occurs "Trident/" ua)
       ∨ (String.prefix "Chrome/41" ua = false ∧ occurs "Chrome/41" ua))
  ∧ (∀ rest, StyleMapTest.testIfSupportsCSSVariables
               ("Chrome/41" +:+ rest) StyleMapTest.test
             = StyleMapTest.test
             ↔ StyleMapTest.isIE ("Chrome/41" +:+ rest) = false).
Proof.
  assert (Hchrome : StyleMapTest.isChrome41 ua = true
            ↔ String.prefix "Chrome/41" ua = false ∧ occurs "Chrome/41" ua)
    by apply indexOf_positive.
  assert (Hie : StyleMapTest.isIE ua = true
            ↔ String.prefix "Trident/" ua = false ∧ occurs "Trident/" ua)
    by apply indexOf_positive.
  split; [exact Hchrome|]. split; [exact Hie|]. split.
  - rewrite <- Hchrome, <- Hie. unfold StyleMapTest.testIfSupportsCSSVariables.
    destruct (StyleMapTest.isIE ua), (StyleMapTest.isChrome41 ua); simpl;
      split; try done; try (intros _; by left); try (intros _; by right);
      intros [?|?]; done.
  - intros rest. unfold StyleMapTest.testIfSupportsCSSVariables.
    assert (Hstart : StyleMapTest.isChrome41 ("Chrome/41" +:+ rest) = false).
    { destruct (StyleMapTest.isChrome41 ("Chrome/41" +:+ rest)) eqn:Hc; [|done].
      apply indexOf_positive in Hc as [Hp _].
      assert (String.prefix "Chrome/41" ("Chrome/41" +:+ rest) = true)
        by (apply prefix_app; by exists rest).
      congruence. }
    rewrite Hstart, orb_false_r.
    destruct (StyleMapTest.isIE ("Chrome/41" +:+ rest)); simpl; split; done.
Qed.

Lemma testIfSupportsCSSVariables_skips_witness :
  StyleMapTest.testIfSupportsCSSVariables
    "Mozilla/5.0 (Windows NT 6.1; Trident/7.0; rv:11.0) like Gecko"
    StyleMapTest.test
  = StyleMapTest.test_skip.
Proof.
  apply (proj1 (proj2 (proj2 (testIfSupportsCSSVariables_skips
           "Mozilla/5.0 (Windows NT 6.1; Trident/7.0; rv:11.0) like Gecko")))).
  left. split; [reflexivity|].
  exists "Mozilla/5.0 (Windows NT 6.1; ", "7.0; rv:11.0) like Gecko".
  reflexivity.
Defined.

(** * The seeder stage *)

Lemma string_app_nil_r (a : string) : a +:+ EmptyString = a.
Proof.
  induction a as [|x a IH]; [done|].
  change (String x (a +:+ EmptyString) = String x a). by rewrite IH.
Qed.

Lemma occurs_app_l pat a s : occurs pat s → occurs pat (a +:+ s).
Proof.
  intros (b & c & ->). exists (a +:+ b), c. by rewrite string_app_assoc.
Qed.

Lemma occurs_join sep line lines :
  line ∈ lines → occurs line (join sep lines).
Proof.
  induction lines as [|first lines IH]; intros Hin.
  - by apply elem_of_nil in Hin.
  - unfold join in *. destruct lines as [|second lines].
    + apply elem_of_cons in Hin as [->|Hin]; [|by apply elem_of_nil in Hin].
      exists EmptyString, EmptyString. simpl. by rewrite string_app_nil_r.
    + change (String.concat sep (first :: second :: lines))
        with (first +:+ sep +:+ String.concat sep (second :: lines)).
      apply elem_of_cons in Hin as [->|Hin].
      * by exists EmptyString, (sep +:+ String.concat sep (second :: lines)).
      * do 2 apply occurs_app_l. by apply IH.
Qed.

(** X8: whatever the entry points are (none at all, or names with any
    characters), the seeder module's text contains a read
    [console.log(window.<name>);] of every name of the Property Mangle
    Table and an import of every entry point; in particular it is never
    empty. *)
Theorem nameCacheSeederContents_reserves_every_name entryPoints :
  (∀ name token, (name, token) ∈ crossPackagePropertyMangles →
     occurs ("console.log(window." +:+ name +:+ ");")
            (nameCacheSeederContents entryPoints))
  ∧ (∀ name, name ∈ entryPoints →
       occurs ("import './development/" +:+ name +:+ ".js';")
              (nameCacheSeederContents entryPoints))
  ∧ nameCacheSeederContents entryPoints ≠ EmptyString.
Proof.
  assert (Hreads : ∀ name token, (name, token) ∈ crossPackagePropertyMangles →
            occurs (property_read name) (nameCacheSeederContents entryPoints)).
  { intros name token Hin. apply occurs_join.
    change (property_read name
            ∈ (import_statement <$> entryPoints)
              ++ (property_read <$> Object_keys crossPackagePropertyMangles)).
    apply elem_of_app. right. apply list_elem_of_fmap. exists name.
    split; [done|]. apply list_elem_of_fmap. by exists (name, token). }
  split; [exact Hreads|]. split.
  - intros name Hin. apply occurs_join.
    change (import_statement name
            ∈ (import_statement <$> entryPoints)
              ++ (property_read <$> Object_keys crossPackagePropertyMangles)).
    apply elem_of_app. left. apply list_elem_of_fmap. by exists name.
  - intros Hempty.
    assert (Hin : ("_createElement", "A") ∈ crossPackagePropertyMangles)
      by apply list_elem_of_here.
    destruct (Hreads _ _ Hin) as (a & b & Heq). rewrite Hempty in Heq.
    apply (f_equal String.length) in Heq.
    rewrite !string_length_app in Heq. simpl in Heq. lia.
Qed.

Lemma nameCacheSeederContents_reserves_every_name_witness :
  occurs "console.log(window._directive);" (nameCacheSeederContents [])
  ∧ occurs "import './development/lit-html.js';"
           (nameCacheSeederContents ["lit-html"]).
Proof.
  split.
  - apply (proj1 (nameCacheSeederContents_reserves_every_name []) "_directive" "F").
    apply (bool_decide_unpack _). by vm_compute.
  - apply (proj1 (proj2 (nameCacheSeederContents_reserves_every_name ["lit-html"]))
             "lit-html").
    apply list_elem_of_here.
Defined.

(** X9: the seeder stage has no [replace] plugin and leaves module source
    as it is, so its minification pass sees the entry points with
    [DEV_MODE] still true, while its minifier options are the very same as
    the per-entry stage's. *)
Theorem seeder_stage_keeps_DEV_MODE h a σ seeder entry σ' :
  litRollupConfig h a σ = Return ([seeder; entry], σ') →
  (∀ values, replace values ∉ plugins seeder)
  ∧ (∀ code, transform seeder code = code)
  ∧ (∀ opts opts', terser opts ∈ plugins seeder → terser opts' ∈ plugins entry →
                   opts = opts').
Proof.
  intros Hr.
  destruct (litRollupConfig_inv _ _ _ _ _ Hr) as (o & eps & -> & Heq & Hc & ->).
  injection Hc as -> ->.
  split; [|split; [reflexivity|]].
  - intros values. simpl. rewrite !elem_of_cons, elem_of_nil.
    intros [?|[?|[?|[]]]]; discriminate.
  - intros opts opts' Hin Hin'.
    rewrite (terser_in_seederStage _ _ _ _ _ Hin).
    by rewrite (terser_in_entryStage _ _ _ _ _ Hin').
Qed.

Lemma seeder_stage_keeps_DEV_MODE_witness :
  let h := {| process_env := ∅; pathLib_dirname := λ _, "." |} in
  transform (seederStage h 0 ["lit-html"] []) "const DEV_MODE = true"
  = "const DEV_MODE = true".
Proof.
  intros h.
  apply (seeder_stage_keeps_DEV_MODE h
           (Arg.Obj {| Arg.entryPoints := Some ["lit-html"]; Arg.external := None |})
           [] (seederStage h 0 ["lit-html"] []) (entryStage h 0 ["lit-html"] [])
           [nameCache] eq_refl).
Defined.
